(** * node-mqtt-shell: the session tunnelling protocol of lib/target.js and
    lib/master.js, embedded as executable definitions.

    Both programs are event handlers over closure variables.  A handler is a
    function from the variables it can reach to the outcome of running it: the
    new values, the calls it made on its collaborators (broker client, pty
    process, websocket, logger) in program order, and whether an exception left
    it. *)

From Stdlib Require Import ZArith List String Ascii Bool Lia Permutation Sorted.
Import ListNotations.
Open Scope string_scope.
Open Scope list_scope.
Open Scope Z_scope.
Set Warnings "-register-all".

(** ** JavaScript values that cross the wire *)

(** A parsed JSON value.  An object is the list of its own properties, each
    key once (what [JSON.parse] returns). *)
Inductive json :=
| JNull
| JBool (b : bool)
| JNum (n : Z)
| JStr (s : string)
| JArr (items : list json)
| JObj (props : list (string * json)).

(** The data message of the README: [{seq, data}]. *)
Record packet := mkPacket { seq : Z; data : string }.

(** A message body, by what [JSON.parse] makes of it: it throws on text that
    is no JSON, and returns the value otherwise.  Control topics carry [json];
    the in and out topics carry [packet] (a payload whose [seq] is not a number
    makes the comparator of [sort] inconsistent, which ECMAScript leaves
    implementation-defined, so such payloads are not represented). *)
Inductive wire (A : Type) :=
| Unparsable (raw : string)
| Parsed (v : A).
Arguments Unparsable {A} raw.
Arguments Parsed {A} v.

Inductive exn :=
| SyntaxError (raw : string).

Definition JSON_parse {A} (msg : wire A) : A + exn :=
  match msg with
  | Unparsable raw => inr (SyntaxError raw)
  | Parsed v => inl v
  end.

Definition json_of_packet (p : packet) : json :=
  JObj [("seq", JNum (seq p)); ("data", JStr (data p))].

(** ** Calls on the collaborators *)

(** A process, by the order in which [pty.spawn] returned it. *)
Abbreviation pid := nat (only parsing).

Inductive level := Error | Warn | Info.

Inductive effect :=
| Log (lvl : level) (text : string)
| Publish (topic : string) (payload : json) (qos : nat)
| Subscribe (topic : string)
| Unsubscribe (topic : string)
| Spawn (command : string) (p : pid)
| Kill (p : pid) (signal : nat)
| PtyWrite (p : pid) (chunk : string)
| UuidV4 (id : string)
| WsSend (chunk : string)
| WsPing
| WsTerminate
| WsClose
| SetInterval (ms : Z)
| ClearInterval.

(** ** Handlers: state, calls made, exceptions *)

Inductive result (S A : Type) :=
| Done (a : A) (s : S) (out : list effect)
| Uncaught (e : exn) (s : S) (out : list effect).
Arguments Done {S A} a s out.
Arguments Uncaught {S A} e s out.

Definition M (S A : Type) := S -> result S A.

Definition ret {S A} (a : A) : M S A := fun s => Done a s [].

Definition bind {S A B} (c : M S A) (k : A -> M S B) : M S B :=
  fun s =>
    match c s with
    | Done a s1 out1 =>
        match k a s1 with
        | Done b s2 out2 => Done b s2 (out1 ++ out2)
        | Uncaught e s2 out2 => Uncaught e s2 (out1 ++ out2)
        end
    | Uncaught e s1 out1 => Uncaught e s1 out1
    end.

Definition get {S} : M S S := fun s => Done s s [].
Definition put {S} (s : S) : M S unit := fun _ => Done tt s [].
Definition emit {S} (e : effect) : M S unit := fun s => Done tt s [e].
Definition throw {S A} (e : exn) : M S A := fun s => Uncaught e s [].

Declare Scope handler_scope.
Delimit Scope handler_scope with handler.
Notation "x <- c ;; k" := (bind c (fun x => k))
  (at level 61, c at next level, right associativity) : handler_scope.
Notation "c ;; k" := (bind c (fun _ => k))
  (at level 61, right associativity) : handler_scope.
Open Scope handler_scope.

(** [const v = JSON.parse(_msg)] *)
Definition parse {S A} (msg : wire A) : M S A :=
  match JSON_parse msg with
  | inl v => ret v
  | inr e => throw e
  end.

(** [for (const x of l) f(x)] *)
Fixpoint for_each {S A} (l : list A) (f : A -> M S unit) : M S unit :=
  match l with
  | [] => ret tt
  | x :: rest => f x ;; for_each rest f
  end.

(** ** The reorder buffer shared by [shell.onMessage] and [onMessage] *)

Module Sequencer.

(** [buffer.sort((p1, p2) => p1.seq - p2.seq)]: the sort is stable, so its
    result is the one of inserting from the right. *)
Fixpoint insert (p : packet) (l : list packet) : list packet :=
  match l with
  | [] => [p]
  | q :: rest => if seq p <=? seq q then p :: l else q :: insert p rest
  end.

Definition sort (l : list packet) : list packet := fold_right insert [] l.

(** [while (buffer.length && buffer[0].seq === next) { sink(buffer.shift().data); ++next; }]
    returns the counter, what stays buffered and what went to the sink. *)
Fixpoint drain (next : Z) (buffer : list packet) : Z * list packet * list string :=
  match buffer with
  | [] => (next, [], [])
  | p :: rest =>
      if seq p =? next
      then let '(n, b, sunk) := drain (next + 1) rest in (n, b, data p :: sunk)
      else (next, buffer, [])
  end.

(** The body of the listener after [JSON.parse]: push, sort, drain. *)
Definition receive (next : Z) (buffer : list packet) (p : packet)
  : Z * list packet * list string :=
  drain next (sort (buffer ++ [p])).

(** Feeding packets one after the other; the sink sees the concatenation. *)
Fixpoint run (next : Z) (buffer : list packet) (l : list packet)
  : Z * list packet * list string :=
  match l with
  | [] => (next, buffer, [])
  | p :: rest =>
      let '(n1, b1, sunk1) := receive next buffer p in
      let '(n2, b2, sunk2) := run n1 b1 rest in
      (n2, b2, sunk1 ++ sunk2)
  end.

(** The packets a sender numbers from [n]: [seq = n, n+1, ...]. *)
Fixpoint numbered (n : Z) (chunks : list string) : list packet :=
  match chunks with
  | [] => []
  | d :: rest => mkPacket n d :: numbered (n + 1) rest
  end.

(** The order the comparator of [sort] induces, and its strict part. *)
Definition seq_le (p q : packet) : Prop := seq p <= seq q.
Definition seq_lt (p q : packet) : Prop := seq p < seq q.

(** [n, n+1, ..., n+len-1] *)
Fixpoint consecutive (n : Z) (len : nat) : list Z :=
  match len with
  | O => []
  | S k => n :: consecutive (n + 1) k
  end.

(** The state of a listener that has received the packets [got] so far, all
    with different [seq]: [sunk_packets] went to the sink, [buffer] waits. *)
Record Inv (got sunk_packets : list packet) (next : Z) (buffer : list packet) : Prop :=
  { inv_nodup : NoDup (map seq got);
    inv_sunk : map seq sunk_packets = consecutive 0 (List.length sunk_packets);
    inv_next : next = Z.of_nat (List.length sunk_packets);
    inv_perm : Permutation (sunk_packets ++ buffer) got;
    inv_sorted : StronglySorted seq_lt buffer;
    inv_future : Forall (fun q => next < seq q) buffer }.

End Sequencer.

(** ** Topic names *)

Module Topics.

(** [`${args.prefix}${id}`] *)
Definition topic (prefix id : string) : string := (prefix ++ id)%string.
(** [`${topic}/list`], [`${topic}/create`], [`${topic}/remove`] *)
Definition topicList (t : string) : string := (t ++ "/list")%string.
Definition topicCreate (t : string) : string := (t ++ "/create")%string.
Definition topicRemove (t : string) : string := (t ++ "/remove")%string.
(** [`${topic}/${id}`], [`${topicTty}/in`], [`${topicTty}/out`] *)
Definition topicTty (t sid : string) : string := (t ++ "/" ++ sid)%string.
Definition topicTtyIn (tty : string) : string := (tty ++ "/in")%string.
Definition topicTtyOut (tty : string) : string := (tty ++ "/out")%string.

(** The topics of one session, and those of its target. *)
Definition session_topics (prefix targetId sessionId : string) : list string :=
  let tty := topicTty (topic prefix targetId) sessionId in
  [topicTtyIn tty; topicTtyOut tty].

Definition target_topics (prefix targetId : string) : list string :=
  let t := topic prefix targetId in
  [t; topicList t; topicCreate t; topicRemove t].

(** Every topic string derived for a target and a session. *)
Definition derived (prefix targetId sessionId : string) : list string :=
  target_topics prefix targetId ++ session_topics prefix targetId sessionId.

(** What follows the prefix and the target identifier in a derived topic. *)
Definition endings : list string :=
  [""; "/list"; "/create"; "/remove"]%string.

Definition session_endings (sessionId : string) : list string :=
  [("/" ++ sessionId ++ "/in")%string; ("/" ++ sessionId ++ "/out")%string].

End Topics.

(** ** [PATTERN_UUID] and the ajv validators *)

Module Pattern.

(** [[0-9a-f]] *)
Definition is_hex (c : ascii) : bool :=
  let n := nat_of_ascii c in
  ((48 <=? n) && (n <=? 57) || (97 <=? n) && (n <=? 102))%nat.

(** [[0-9a-f]{k}] at the start of [s]: what follows the match. *)
Fixpoint hexes (k : nat) (s : string) : option string :=
  match k with
  | O => Some s
  | S k' =>
      match s with
      | String c rest => if is_hex c then hexes k' rest else None
      | EmptyString => None
      end
  end.

(** [-[0-9a-f]{k}] at the start of [s]. *)
Definition group (k : nat) (s : string) : option string :=
  match s with
  | String c rest => if Ascii.eqb c "-" then hexes k rest else None
  | EmptyString => None
  end.

Definition and_then (r : option string) (f : string -> option string) : option string :=
  match r with
  | Some s => f s
  | None => None
  end.

(** [[0-9a-f]{8}(-[0-9a-f]{4}){3}-[0-9a-f]{12}] at the start of [s]. *)
Definition PATTERN_UUID_at (s : string) : option string :=
  and_then (and_then (and_then (and_then (hexes 8 s) (group 4)) (group 4)) (group 4)) (group 12).

(** [new RegExp(PATTERN_UUID, "u").test(s)], which is how ajv applies the
    [pattern] keyword: the pattern has no anchors, so a match may start at any
    position of [s]. *)
Fixpoint test (s : string) : bool :=
  match PATTERN_UUID_at s with
  | Some _ => true
  | None =>
      match s with
      | String _ rest => test rest
      | EmptyString => false
      end
  end.

(** The identifier is a UUID and nothing else: the pattern matches all of it. *)
Definition is_uuid (s : string) : bool :=
  match PATTERN_UUID_at s with
  | Some EmptyString => true
  | _ => false
  end.

End Pattern.

(** [obj[name]] on a parsed object: [None] is [undefined]. *)
Fixpoint prop (name : string) (props : list (string * json)) : option json :=
  match props with
  | [] => None
  | (k, v) :: rest => if String.eqb k name then Some v else prop name rest
  end.

(** [{type: 'object', properties: {id: {type: 'string', pattern: PATTERN_UUID}}}]:
    an object (neither null nor an array) whose [id], when it has one, is a
    string that the pattern matches.  No property is required. *)
Definition VALIDATOR_CREATE (params : json) : bool :=
  match params with
  | JObj props =>
      match prop "id" props with
      | None => true
      | Some (JStr s) => Pattern.test s
      | Some _ => false
      end
  | _ => false
  end.

Definition VALIDATOR_REMOVE (params : json) : bool := VALIDATOR_CREATE params.

(** [{type: 'string', pattern: PATTERN_UUID}] applied to what
    [url.searchParams.get('target')] returned: a string, or [null]. *)
Definition VALIDATOR_TARGET (targetId : option string) : bool :=
  match targetId with
  | Some s => Pattern.test s
  | None => false
  end.

(** ** lib/target.js *)

Module Target.

(** [args] after [VALIDATOR_ARGS] accepted them. *)
Record args := mkArgs { arg_prefix : string; arg_id : string; arg_shell : string }.

(** A key of [shells]: [params.id] once the validator accepted [params] is a
    string, or [undefined] ([None]) for an object without [id]. *)
Definition key := option string.

Definition params_id (params : json) : key :=
  match params with
  | JObj props =>
      match prop "id" props with
      | Some (JStr s) => Some s
      | _ => None
      end
  | _ => None
  end.

(** [`${k}`] and [JSON.stringify] of a key inside an array. *)
Definition key_text (k : key) : string :=
  match k with
  | Some s => s
  | None => "undefined"
  end.

Definition key_json (k : key) : json :=
  match k with
  | Some s => JStr s
  | None => JNull
  end.

Definition key_eqb (k1 k2 : key) : bool :=
  match k1, k2 with
  | Some a, Some b => String.eqb a b
  | None, None => true
  | _, _ => false
  end.

(** One activation of [ttyCreate] that got as far as [pty.spawn]: the object
    [shell] with its process, and the variables its closures share. *)
Record shell := mkShell
  { process : pid; seqIn : Z; seqOut : Z; bufferIn : list packet }.

(** [shells] is a [Map]: it iterates in insertion order.  [mqttClient.on] and
    [off] of [shell.onMessage] stand next to [shells.set] and [shells.delete]
    in the source, so the shells whose listener is registered on the client are
    those of the map, in the same order. *)
Record state := mkState
  { shells : list (key * shell);
    subscriptions : list string;
    spawned : nat }.

Definition initial : state :=
  {| shells := []; subscriptions := []; spawned := 0 |}.

Fixpoint map_get {V} (k : key) (m : list (key * V)) : option V :=
  match m with
  | [] => None
  | (k', v) :: rest => if key_eqb k' k then Some v else map_get k rest
  end.

Definition map_has {V} (k : key) (m : list (key * V)) : bool :=
  match map_get k m with
  | Some _ => true
  | None => false
  end.

Fixpoint map_set {V} (k : key) (v : V) (m : list (key * V)) : list (key * V) :=
  match m with
  | [] => [(k, v)]
  | (k', v') :: rest =>
      if key_eqb k' k then (k', v) :: rest else (k', v') :: map_set k v rest
  end.

Definition map_delete {V} (k : key) (m : list (key * V)) : list (key * V) :=
  filter (fun e => negb (key_eqb (fst e) k)) m.

Definition map_keys {V} (m : list (key * V)) : list key := map fst m.

Definition topic (a : args) : string := Topics.topic (arg_prefix a) (arg_id a).
Definition topicList (a : args) : string := Topics.topicList (topic a).
Definition topicCreate (a : args) : string := Topics.topicCreate (topic a).
Definition topicRemove (a : args) : string := Topics.topicRemove (topic a).
Definition topicTty (a : args) (k : key) : string := Topics.topicTty (topic a) (key_text k).
Definition topicTtyIn (a : args) (k : key) : string := Topics.topicTtyIn (topicTty a k).
Definition topicTtyOut (a : args) (k : key) : string := Topics.topicTtyOut (topicTty a k).

Definition set_shells (m : list (key * shell)) : M state unit :=
  fun st => Done tt {| shells := m; subscriptions := subscriptions st; spawned := spawned st |} [].

(** [subscribe] of the broker client on the list of subscriptions. *)
Definition subscribed (t : string) (subs : list string) : list string :=
  if existsb (String.eqb t) subs then subs else subs ++ [t].

(** [unsubscribe] on the list of subscriptions. *)
Definition unsubscribed (t : string) (subs : list string) : list string :=
  filter (fun t' => negb (String.eqb t t')) subs.

(** [mqttClient.subscribe(t)] and [mqttClient.unsubscribe(t)] *)
Definition mqtt_subscribe (t : string) : M state unit :=
  fun st =>
    Done tt
      {| shells := shells st;
         subscriptions := subscribed t (subscriptions st);
         spawned := spawned st |}
      [Subscribe t].

Definition mqtt_unsubscribe (t : string) : M state unit :=
  fun st =>
    Done tt
      {| shells := shells st;
         subscriptions := unsubscribed t (subscriptions st);
         spawned := spawned st |}
      [Unsubscribe t].

(** [pty.spawn(args.shell, [], ...)]: a process no earlier call returned. *)
Definition pty_spawn (a : args) : M state pid :=
  fun st =>
    Done (spawned st)
      {| shells := shells st; subscriptions := subscriptions st; spawned := S (spawned st) |}
      [Spawn (arg_shell a) (spawned st)].

(** [ttyList] *)
Definition ttyList (a : args) : M state unit :=
  st <- get ;;
  emit (Publish (topicList a) (JArr (map key_json (map_keys (shells st)))) 1).

(** [ttyCreate] *)
Definition ttyCreate (a : args) (_msg : wire json) : M state unit :=
  params <- parse _msg ;;
  if negb (VALIDATOR_CREATE params) then emit (Log Error "invalid params")
  else
    st <- get ;;
    if map_has (params_id params) (shells st)
    then emit (Log Warn "shell already exists")
    else
      emit (Log Info "") ;;
      process <- pty_spawn a ;;
      mqtt_subscribe (topicTtyIn a (params_id params)) ;;
      st <- get ;;
      set_shells
        (map_set (params_id params)
           {| process := process; seqIn := 0; seqOut := 0; bufferIn := [] |}
           (shells st)) ;;
      ttyList a.

(** [ttyRemove] *)
Definition ttyRemove (a : args) (_msg : wire json) : M state unit :=
  params <- parse _msg ;;
  if negb (VALIDATOR_REMOVE params) then emit (Log Error "invalid params")
  else
    st <- get ;;
    match map_get (params_id params) (shells st) with
    | None => emit (Log Warn "shell does not exist")
    | Some sh => emit (Log Info "") ;; emit (Kill (process sh) 9)
    end.

(** [shell.onMessage], the listener of the shell stored under [k]. *)
Definition onMessage (a : args) (k : key) (_topic : string) (_msg : wire packet)
  : M shell unit :=
  if negb (String.eqb _topic (topicTtyIn a k)) then ret tt
  else
    packet <- parse _msg ;;
    sh <- get ;;
    let '(n, b, sunk) := Sequencer.receive (seqIn sh) (bufferIn sh) packet in
    put {| process := process sh; seqIn := n; seqOut := seqOut sh; bufferIn := b |} ;;
    fun s => Done tt s (map (PtyWrite (process sh)) sunk).

(** The callback given to [shell.process.onData]. *)
Definition onData (a : args) (k : key) (_data : string) : M shell unit :=
  sh <- get ;;
  put {| process := process sh; seqIn := seqIn sh; seqOut := seqOut sh + 1;
         bufferIn := bufferIn sh |} ;;
  emit (Publish (topicTtyOut a k) (json_of_packet (mkPacket (seqOut sh) _data)) 0).

(** The callback given to [shell.process.onExit] by the activation for [k]. *)
Definition onExit (a : args) (k : key) : M state unit :=
  mqtt_unsubscribe (topicTtyIn a k) ;;
  st <- get ;;
  set_shells (map_delete k (shells st)) ;;
  ttyList a.

(** Running a callback of the shell stored under [k] on that shell. *)
Definition with_shell (k : key) (c : M shell unit) : M state unit :=
  fun st =>
    match map_get k (shells st) with
    | None => Done tt st []
    | Some sh =>
        let store sh' :=
          {| shells := map_set k sh' (shells st);
             subscriptions := subscriptions st;
             spawned := spawned st |} in
        match c sh with
        | Done _ sh' out => Done tt (store sh') out
        | Uncaught e sh' out => Uncaught e (store sh') out
        end
    end.

(** The key whose shell runs process [p], if it is still in [shells]. *)
Definition owner (p : pid) (m : list (key * shell)) : option key :=
  match find (fun e => Nat.eqb (process (snd e)) p) m with
  | Some (k, _) => Some k
  | None => None
  end.

(** [mqttClient.on('message', (_topic, _msg) => { switch (_topic) ... })] *)
Definition control (a : args) (_topic : string) (_msg : wire json) : M state unit :=
  if String.eqb _topic (topicCreate a) then ttyCreate a _msg
  else if String.eqb _topic (topicRemove a) then ttyRemove a _msg
  else ret tt.

Definition as_json (m : wire packet) : wire json :=
  match m with
  | Unparsable raw => Unparsable raw
  | Parsed p => Parsed (json_of_packet p)
  end.

(** What the event loop hands to the program. *)
Inductive event :=
| EvConnect
| EvError
| EvControl (topic : string) (msg : wire json)
| EvStream (topic : string) (msg : wire packet)
| EvData (p : pid) (chunk : string)
| EvExit (p : pid).

(** One turn of the event loop.  A ['message'] event calls the listeners
    registered when it is emitted, in order of registration (the control
    listener first); an exception leaves the turn at once.  [EvStream] is a
    message whose body is a packet, or no JSON: it goes to every listener.
    [EvControl] is a message with any other body, which only the control
    listener is given: the shell listeners return at once on a topic that is
    not theirs, and on their topic such a body is outside [wire packet]. *)
Definition step (a : args) (ev : event) : M state unit :=
  match ev with
  | EvConnect =>
      ttyList a ;;
      mqtt_subscribe (topicCreate a) ;;
      mqtt_subscribe (topicRemove a)
  | EvError => emit (Log Error "")
  | EvControl _topic _msg => control a _topic _msg
  | EvStream _topic _msg =>
      st <- get ;;
      control a _topic (as_json _msg) ;;
      for_each (map_keys (shells st))
        (fun k => with_shell k (onMessage a k _topic _msg))
  | EvData p chunk =>
      st <- get ;;
      match owner p (shells st) with
      | Some k => with_shell k (onData a k chunk)
      | None => ret tt
      end
  | EvExit p =>
      st <- get ;;
      match owner p (shells st) with
      | Some k => onExit a k
      | None => ret tt
      end
  end.

(** The states the program can be in: those some sequence of turns leads to.
    An uncaught exception ends the process. *)
Inductive reachable (a : args) : state -> Prop :=
| reach_initial : reachable a initial
| reach_step st ev st' out :
    reachable a st -> step a ev st = Done tt st' out -> reachable a st'.

(** The keys of [shells] with the process each is bound to. *)
Definition bindings (m : list (key * shell)) : list (key * pid) :=
  map (fun e => (fst e, process (snd e))) m.

(** The facts about [shells] that every turn of the event loop keeps: a key
    occurs once, a process is bound to one key, and [pty.spawn] has not yet
    returned any process that is not in use. *)
Record wf (st : state) : Prop :=
  { wf_keys : NoDup (map fst (bindings (shells st)));
    wf_pids : NoDup (map snd (bindings (shells st)));
    wf_fresh : Forall (fun e => (snd e < spawned st)%nat) (bindings (shells st)) }.

(** The state [ttyCreate] leaves when it gets to the end. *)
Definition created (a : args) (k : key) (st : state) : state :=
  {| shells :=
       map_set k {| process := spawned st; seqIn := 0; seqOut := 0; bufferIn := [] |}
         (shells st);
     subscriptions := subscribed (topicTtyIn a k) (subscriptions st);
     spawned := S (spawned st) |}.

(** A turn that is not the exit of a process leaves every binding in place
    and adds at most one, for a key that had none, to a new process. *)
Definition grows (st st' : state) : Prop :=
  (bindings (shells st') = bindings (shells st) /\ spawned st' = spawned st
   \/ exists k,
        map_get k (shells st) = None /\
        bindings (shells st') = bindings (shells st) ++ [(k, spawned st)] /\
        spawned st' = S (spawned st))
  /\ (forall t, In t (subscriptions st) -> In t (subscriptions st')).

(** The state the exit callback of the shell under [k] leaves. *)
Definition exited (a : args) (k : key) (st : state) : state :=
  {| shells := map_delete k (shells st);
     subscriptions := unsubscribed (topicTtyIn a k) (subscriptions st);
     spawned := spawned st |}.

(** What C8 states: both control topics are subscribed to before the list is
    published. *)
Definition subscribes_before_publishing (a : args) (out : list effect) : Prop :=
  exists before after payload qos,
    out = before ++ Publish (topicList a) payload qos :: after
    /\ In (Subscribe (topicCreate a)) before
    /\ In (Subscribe (topicRemove a)) before.

(** A key the validators let into [shells]: [undefined], or a string the
    pattern matches. *)
Definition valid_key (k : key) : Prop :=
  match k with
  | Some s => Pattern.test s = true
  | None => True
  end.

(** [shells] with the shell under [k] replaced. *)
Definition put_shell (k : key) (sh : shell) (st : state) : state :=
  {| shells := map_set k sh (shells st);
     subscriptions := subscriptions st;
     spawned := spawned st |}.

(** The subscriptions the program asks for: the two control topics, and the
    in topic of each session in [shells]. *)
Definition wanted (a : args) (st : state) (t : string) : Prop :=
  t = topicCreate a \/ t = topicRemove a
  \/ exists k, In k (map_keys (shells st)) /\ t = topicTtyIn a k.

(** What one turn of the event loop does to the keys of [shells] and to the
    subscriptions: nothing; or the two control topics are subscribed to; or a
    key that had no entry gets one and its in topic is subscribed to; or the
    entry of a key is deleted and its in topic unsubscribed from. *)
Inductive turn (a : args) (st st' : state) : Prop :=
| turn_same :
    map_keys (shells st') = map_keys (shells st) ->
    subscriptions st' = subscriptions st ->
    turn a st st'
| turn_connect :
    map_keys (shells st') = map_keys (shells st) ->
    subscriptions st' =
      subscribed (topicRemove a) (subscribed (topicCreate a) (subscriptions st)) ->
    turn a st st'
| turn_create k :
    valid_key k ->
    map_get k (shells st) = None ->
    map_keys (shells st') = map_keys (shells st) ++ [k] ->
    subscriptions st' = subscribed (topicTtyIn a k) (subscriptions st) ->
    turn a st st'
| turn_exit k :
    In k (map_keys (shells st)) ->
    shells st' = map_delete k (shells st) ->
    subscriptions st' = unsubscribed (topicTtyIn a k) (subscriptions st) ->
    turn a st st'.

(** Registry and subscriptions agree. *)
Record tidy (a : args) (st : state) : Prop :=
  { tidy_valid : forall k, In k (map_keys (shells st)) -> valid_key k;
    tidy_subscribed :
      forall k, In k (map_keys (shells st)) -> In (topicTtyIn a k) (subscriptions st);
    tidy_wanted : forall t, In t (subscriptions st) -> wanted a st t;
    tidy_nodup : NoDup (subscriptions st) }.

(** A publication of the list of sessions. *)
Definition lists (a : args) (st : state) : effect :=
  Publish (topicList a) (JArr (map key_json (map_keys (shells st)))) 1.

Definition is_write (e : effect) : Prop := exists p chunk, e = PtyWrite p chunk.

End Target.

(** ** lib/master.js *)

Module Master.

Definition HEARTBEAT_INTERVAL : Z := 30000.

(** The variables of one activation of the ['connection'] listener.
    [heartbeat] tells whether the interval timer is still set, [listening]
    whether [onMessage] is registered on [mqttClient]. *)
Record conn := mkConn
  { targetId : string;
    ttyId : string;
    isAlive : bool;
    heartbeat : bool;
    seqIn : Z;
    seqOut : Z;
    bufferOut : list packet;
    listening : bool }.

(** [`${targetId}`] of what [searchParams.get] returned. *)
Definition target_text (targetId : option string) : string :=
  match targetId with
  | Some s => s
  | None => "null"
  end.

Definition topic (prefix : string) (c : conn) : string := Topics.topic prefix (targetId c).
Definition topicCreate (prefix : string) (c : conn) : string := Topics.topicCreate (topic prefix c).
Definition topicRemove (prefix : string) (c : conn) : string := Topics.topicRemove (topic prefix c).
Definition topicTty (prefix : string) (c : conn) : string := Topics.topicTty (topic prefix c) (ttyId c).
Definition topicTtyIn (prefix : string) (c : conn) : string := Topics.topicTtyIn (topicTty prefix c).
Definition topicTtyOut (prefix : string) (c : conn) : string := Topics.topicTtyOut (topicTty prefix c).

(** [wsServer.on('connection', ...)] up to the registration of the listeners.
    [fresh] is what [uuid.v4()] returns if it is called.  The result is the
    connection's variables, when the listener gets past the validator, and
    the calls made. *)
Definition connection (prefix : string) (target : option string) (fresh : string)
  : option conn * list effect :=
  if negb (VALIDATOR_TARGET target)
  then (None, [Log Error "invalid target id"; WsClose])
  else
    let c :=
      {| targetId := target_text target;
         ttyId := fresh;
         isAlive := true;
         heartbeat := true;
         seqIn := 0;
         seqOut := 0;
         bufferOut := [];
         listening := true |} in
    (Some c,
     [UuidV4 fresh;
      Log Info "connected";
      Publish (topicCreate prefix c) (JObj [("id", JStr fresh)]) 1;
      SetInterval HEARTBEAT_INTERVAL;
      Subscribe (topicTtyOut prefix c)]).

Definition set_isAlive (b : bool) : M conn unit :=
  fun c =>
    Done tt
      {| targetId := targetId c; ttyId := ttyId c; isAlive := b;
         heartbeat := heartbeat c; seqIn := seqIn c; seqOut := seqOut c;
         bufferOut := bufferOut c; listening := listening c |} [].

(** The callback of [setInterval]. *)
Definition beat : M conn unit :=
  c <- get ;;
  if negb (isAlive c) then emit WsTerminate
  else set_isAlive false ;; emit WsPing.

(** [onMessage] *)
Definition onMessage (prefix : string) (_topic : string) (_msg : wire packet)
  : M conn unit :=
  c <- get ;;
  if negb (String.eqb _topic (topicTtyOut prefix c)) then ret tt
  else
    packet <- parse _msg ;;
    let '(n, b, sunk) := Sequencer.receive (seqOut c) (bufferOut c) packet in
    put {| targetId := targetId c; ttyId := ttyId c; isAlive := isAlive c;
           heartbeat := heartbeat c; seqIn := seqIn c; seqOut := n;
           bufferOut := b; listening := listening c |} ;;
    fun s => Done tt s (map WsSend sunk).

(** [_wsClient.on('message', ...)] *)
Definition on_ws_message (prefix : string) (_msg : string) : M conn unit :=
  c <- get ;;
  put {| targetId := targetId c; ttyId := ttyId c; isAlive := isAlive c;
         heartbeat := heartbeat c; seqIn := seqIn c + 1; seqOut := seqOut c;
         bufferOut := bufferOut c; listening := listening c |} ;;
  emit (Publish (topicTtyIn prefix c) (json_of_packet (mkPacket (seqIn c) _msg)) 0).

(** [_wsClient.on('close', ...)] *)
Definition on_close (prefix : string) : M conn unit :=
  c <- get ;;
  emit (Log Info "disconnected") ;;
  put {| targetId := targetId c; ttyId := ttyId c; isAlive := isAlive c;
         heartbeat := false; seqIn := seqIn c; seqOut := seqOut c;
         bufferOut := bufferOut c; listening := false |} ;;
  emit ClearInterval ;;
  emit (Unsubscribe (topicTtyOut prefix c)) ;;
  emit (Publish (topicRemove prefix c) (JObj [("id", JStr (ttyId c))]) 1).

(** What the event loop hands to the listeners of one connection. *)
Inductive event :=
| EvPong
| EvTick
| EvMessage (topic : string) (msg : wire packet)
| EvWsMessage (chunk : string)
| EvWsError
| EvClose.

(** One turn of the event loop.  The timer fires while it is set, and
    [mqttClient] calls [onMessage] while it is registered. *)
Definition step (prefix : string) (ev : event) : M conn unit :=
  match ev with
  | EvPong => set_isAlive true
  | EvTick => c <- get ;; if heartbeat c then beat else ret tt
  | EvMessage _topic _msg =>
      c <- get ;; if listening c then onMessage prefix _topic _msg else ret tt
  | EvWsMessage _msg => on_ws_message prefix _msg
  | EvWsError => emit (Log Error "")
  | EvClose => on_close prefix
  end.

Definition run (prefix : string) (evs : list event) : M conn unit :=
  for_each evs (step prefix).

(** The time of the [k]-th tick of the heartbeat timer, in milliseconds after
    [setInterval]. *)
Definition tick_time (k : nat) : Z := Z.of_nat k * HEARTBEAT_INTERVAL.

(** The calls C4 counts: [_wsClient.terminate()], and the publication of
    [{id: ttyId}] on the remove topic with qos 1. *)
Definition is_terminate (e : effect) : bool :=
  match e with
  | WsTerminate => true
  | _ => false
  end.

Definition is_remove (t id : string) (e : effect) : bool :=
  match e with
  | Publish t' (JObj [(name, JStr id')]) 1%nat =>
      String.eqb t' t && String.eqb name "id" && String.eqb id' id
  | _ => false
  end.

Definition is_ping (e : effect) : bool :=
  match e with
  | WsPing => true
  | _ => false
  end.

Definition count (f : effect -> bool) (out : list effect) : nat :=
  List.length (filter f out).

(** Events that are neither a tick, nor a pong, nor the close of the socket,
    and that no listener throws on: data from the client, socket errors, and
    packets from the broker. *)
Definition quiet (ev : event) : bool :=
  match ev with
  | EvWsMessage _ | EvWsError | EvMessage _ (Parsed _) => true
  | _ => false
  end.

(** What no listener but [close] changes. *)
Record same_session (c c' : conn) : Prop :=
  { same_targetId : targetId c' = targetId c;
    same_ttyId : ttyId c' = ttyId c;
    same_heartbeat : heartbeat c' = heartbeat c;
    same_listening : listening c' = listening c }.

(** One interval in which the client answers: events of the [quiet] kind,
    a pong, more of the [quiet] kind, and the tick that ends the interval. *)
Definition answered_interval (r : list event * list event) : list event :=
  fst r ++ [EvPong] ++ snd r ++ [EvTick].

(** [mqttClient] emitting ['message'] with the [onMessage] listeners of the
    connections [cs] registered on it, oldest first: each is called in turn,
    and an exception one of them throws leaves the emit, the later ones not
    being called. *)
Fixpoint broadcast (prefix _topic : string) (_msg : wire packet) (cs : list conn)
  : result (list conn) unit :=
  match cs with
  | [] => Done tt [] []
  | c :: rest =>
      match step prefix (EvMessage _topic _msg) c with
      | Uncaught e c' out => Uncaught e (c' :: rest) out
      | Done _ c' out =>
          match broadcast prefix _topic _msg rest with
          | Done _ rest' out' => Done tt (c' :: rest') (out ++ out')
          | Uncaught e rest' out' => Uncaught e (c' :: rest') (out ++ out')
          end
      end
  end.

(** Events that reach a connection through a listener that [close] takes
    away: a tick of the timer, a message from the broker. *)
Definition detachable (ev : event) : bool :=
  match ev with
  | EvTick | EvMessage _ _ => true
  | _ => false
  end.

End Master.

(** ** A concrete run *)

Module Demo.

Definition target_args : Target.args :=
  Target.mkArgs "shell/" "11111111-1111-1111-1111-111111111111" "bash".

Definition session : string := "22222222-2222-2222-2222-222222222222".

Definition other_session : string := "33333333-3333-3333-3333-333333333333".

Definition fresh_shell : Target.shell :=
  {| Target.process := 0%nat; Target.seqIn := 0; Target.seqOut := 0;
     Target.bufferIn := [] |}.

(** The connection as [Master.connection] leaves it. *)
Definition fresh_conn : Master.conn :=
  {| Master.targetId := "11111111-1111-1111-1111-111111111111";
     Master.ttyId := session;
     Master.isAlive := true;
     Master.heartbeat := true;
     Master.seqIn := 0;
     Master.seqOut := 0;
     Master.bufferOut := [];
     Master.listening := true |}.

Definition p0 : packet := mkPacket 0 "l".
Definition p1 : packet := mkPacket 1 "s".
Definition p2 : packet := mkPacket 2 "!".

(** What the broker client hands to the listener of [session] on the target
    and to the one of [fresh_conn] on the master. *)
Definition to_shell (l : list packet) : M Target.shell unit :=
  for_each l
    (fun q =>
       Target.onMessage target_args (Some session)
         (Target.topicTtyIn target_args (Some session)) (Parsed q)).

Definition to_client (l : list packet) : M Master.conn unit :=
  Master.run "shell/"
    (map (fun q => Master.EvMessage (Master.topicTtyOut "shell/" fresh_conn) (Parsed q)) l).

(** The control payload [{id: session}], and the target after it was
    received on the create topic of a target that had no session. *)
Definition session_params : json := JObj [("id", JStr session)].

Definition one_session : Target.state :=
  {| Target.shells := [(Some session, fresh_shell)];
     Target.subscriptions :=
       ["shell/11111111-1111-1111-1111-111111111111/22222222-2222-2222-2222-222222222222/in"];
     Target.spawned := 1 |}.

(** A [target] parameter that contains a UUID and is none. *)
Definition padded_target : string := "x11111111-1111-1111-1111-111111111111/y".

(** The target with a second session, created after the first. *)
Definition other_params : json := JObj [("id", JStr other_session)].

Definition two_sessions : Target.state :=
  {| Target.shells :=
       [(Some session, fresh_shell);
        (Some other_session,
         {| Target.process := 1%nat; Target.seqIn := 0; Target.seqOut := 0;
            Target.bufferIn := [] |})];
     Target.subscriptions :=
       ["shell/11111111-1111-1111-1111-111111111111/22222222-2222-2222-2222-222222222222/in";
        "shell/11111111-1111-1111-1111-111111111111/33333333-3333-3333-3333-333333333333/in"];
     Target.spawned := 2 |}.

(** A second connection of the master, to the same target. *)
Definition other_conn : Master.conn :=
  {| Master.targetId := "11111111-1111-1111-1111-111111111111";
     Master.ttyId := other_session;
     Master.isAlive := true;
     Master.heartbeat := true;
     Master.seqIn := 0;
     Master.seqOut := 0;
     Master.bufferOut := [];
     Master.listening := true |}.

End Demo.

(** * Properties *)

(** ** The reorder buffer *)

Module SequencerFacts.
Import Sequencer.

Lemma insert_perm p l : Permutation (p :: l) (insert p l).
Proof.
  induction l as [|q rest IH]; simpl; [reflexivity|].
  destruct (seq p <=? seq q); [reflexivity|].
  rewrite perm_swap. now constructor.
Qed.

Lemma sort_perm l : Permutation l (sort l).
Proof.
  induction l as [|p rest IH]; simpl; [constructor|].
  rewrite <- insert_perm. now constructor.
Qed.

Lemma insert_sorted p l :
  StronglySorted seq_le l -> StronglySorted seq_le (insert p l).
Proof.
  induction 1 as [|q rest Hs IH Hq]; simpl.
  - repeat constructor.
  - destruct (Z.leb_spec (seq p) (seq q)).
    + constructor; [now constructor|].
      constructor; [assumption|].
      eapply Forall_impl; [|exact Hq]. unfold seq_le. intros; lia.
    + constructor; [assumption|].
      eapply Permutation_Forall; [apply insert_perm|].
      constructor; [unfold seq_le; lia|assumption].
Qed.

Lemma sort_sorted l : StronglySorted seq_le (sort l).
Proof.
  induction l; simpl; [constructor|now apply insert_sorted].
Qed.

(** A sorted list of packets with pairwise different [seq] is strictly sorted. *)
Lemma sorted_nodup_strict l :
  StronglySorted seq_le l -> NoDup (map seq l) -> StronglySorted seq_lt l.
Proof.
  induction 1 as [|q rest Hs IH Hq]; intros Hnd; [constructor|].
  simpl in Hnd. inversion Hnd as [|? ? Hnotin Hnd']; subst.
  constructor; [auto|].
  rewrite Forall_forall in *. intros r Hr.
  specialize (Hq r Hr). unfold seq_le, seq_lt in *.
  assert (seq q <> seq r) by (intros E; apply Hnotin; rewrite E; now apply in_map).
  lia.
Qed.

Lemma consecutive_length n len : List.length (consecutive n len) = len.
Proof. revert n; induction len; simpl; intros; auto. Qed.

Lemma consecutive_In n len z :
  In z (consecutive n len) <-> n <= z < n + Z.of_nat len.
Proof.
  revert n; induction len as [|k IH]; intros n; simpl.
  - lia.
  - rewrite IH. lia.
Qed.

Lemma consecutive_app n a b :
  consecutive n (a + b) = consecutive n a ++ consecutive (n + Z.of_nat a) b.
Proof.
  revert n; induction a as [|a IH]; intros n; simpl.
  - now rewrite Z.add_0_r.
  - rewrite IH. do 3 f_equal. lia.
Qed.

Lemma numbered_seq n chunks :
  map seq (numbered n chunks) = consecutive n (List.length chunks).
Proof.
  revert n; induction chunks as [|d rest IH]; intros n; simpl; [reflexivity|].
  now rewrite IH.
Qed.

Lemma numbered_data n chunks : map data (numbered n chunks) = chunks.
Proof.
  revert n; induction chunks as [|d rest IH]; intros n; simpl; [reflexivity|].
  now rewrite IH.
Qed.

Lemma consecutive_nodup n len : NoDup (consecutive n len).
Proof.
  revert n; induction len as [|k IH]; intros n; simpl; constructor; auto.
  rewrite consecutive_In. lia.
Qed.

(** What the while loop does on a strictly sorted buffer none of whose packets
    is older than the counter: it hands over a run of consecutive packets and
    leaves only packets from the future. *)
Lemma drain_sorted buffer : forall next,
  StronglySorted seq_lt buffer ->
  Forall (fun q => next <= seq q) buffer ->
  exists sunk_packets,
    let '(n, b, sunk) := drain next buffer in
    buffer = sunk_packets ++ b /\
    sunk = map data sunk_packets /\
    map seq sunk_packets = consecutive next (List.length sunk_packets) /\
    n = next + Z.of_nat (List.length sunk_packets) /\
    StronglySorted seq_lt b /\
    Forall (fun q => n < seq q) b.
Proof.
  induction buffer as [|p rest IH]; intros next Hs Hge; simpl.
  - exists []. simpl. repeat split; auto; lia.
  - inversion Hs as [|? ? Hs' Hlt]; subst.
    inversion Hge as [|? ? Hp Hge']; subst.
    destruct (Z.eqb_spec (seq p) next) as [E|NE].
    + destruct (IH (next + 1) Hs') as [sp Hsp].
      { eapply Forall_impl; [|exact Hlt]. unfold seq_lt. intros; lia. }
      destruct (drain (next + 1) rest) as [[n b] sunk].
      destruct Hsp as (-> & -> & Hseq & -> & Hsb & Hfb).
      exists (p :: sp). simpl. rewrite Hseq, E.
      repeat split; auto. lia.
    + exists []. simpl. repeat split; auto; [lia|].
      constructor; [lia|].
      eapply Forall_impl; [|exact Hlt]. unfold seq_lt. intros; lia.
Qed.

Lemma Inv_init : Inv [] [] 0 [].
Proof. split; simpl; auto; constructor. Qed.

Lemma Inv_perm got got' sp next buffer :
  Permutation got got' -> Inv got sp next buffer -> Inv got' sp next buffer.
Proof.
  intros HP [H1 H2 H3 H4 H5 H6]. split; auto.
  - eapply Permutation_NoDup; [apply Permutation_map; exact HP|exact H1].
  - now rewrite H4.
Qed.

Lemma receive_inv got sp next buffer p :
  Inv got sp next buffer ->
  0 <= seq p ->
  ~ In (seq p) (map seq got) ->
  exists sp',
    let '(n, b, sunk) := receive next buffer p in
    sunk = map data sp' /\ Inv (p :: got) (sp ++ sp') n b.
Proof.
  intros [Hnd Hsunk Hnext Hperm Hsorted Hfuture] Hp Hnew.
  unfold receive.
  assert (Hpb : Permutation (p :: buffer) (sort (buffer ++ [p]))).
  { rewrite <- sort_perm. apply Permutation_cons_append. }
  assert (Hndb : NoDup (map seq (p :: buffer))).
  { simpl. constructor.
    - intros Hin. apply Hnew.
      eapply Permutation_in; [apply Permutation_map; exact Hperm|].
      rewrite map_app, in_app_iff. now right.
    - apply (NoDup_app_remove_l (map seq sp)). rewrite <- map_app.
      apply (Permutation_NoDup (l := map seq got)); [|exact Hnd].
      apply Permutation_map. now symmetry. }
  assert (Hge : next <= seq p).
  { destruct (Z_lt_le_dec (seq p) next) as [Hlt|]; [|assumption].
    exfalso. apply Hnew.
    eapply Permutation_in; [apply Permutation_map; exact Hperm|].
    rewrite map_app, in_app_iff. left.
    rewrite Hsunk, consecutive_In. lia. }
  destruct (drain_sorted (sort (buffer ++ [p])) next) as [sp' Hd].
  { apply sorted_nodup_strict; [apply sort_sorted|].
    eapply Permutation_NoDup; [apply Permutation_map; exact Hpb|exact Hndb]. }
  { eapply Permutation_Forall; [exact Hpb|].
    constructor; [assumption|].
    eapply Forall_impl; [|exact Hfuture]. intros q Hq; simpl in Hq; lia. }
  exists sp'.
  destruct (drain next (sort (buffer ++ [p]))) as [[n b] sunk].
  destruct Hd as (Hsplit & -> & Hseq & -> & Hsb & Hfb).
  split; [reflexivity|]. split; auto.
  - simpl. constructor; assumption.
  - rewrite map_app, length_app, consecutive_app, Hsunk, Hseq.
    do 2 f_equal. simpl. lia.
  - rewrite length_app. lia.
  - rewrite <- app_assoc, <- Hsplit, <- Hpb.
    rewrite <- Permutation_middle. now constructor.
Qed.

Lemma run_inv l : forall got sp next buffer,
  Inv got sp next buffer ->
  Forall (fun p => 0 <= seq p) l ->
  NoDup (map seq l) ->
  (forall p, In p l -> ~ In (seq p) (map seq got)) ->
  exists sp',
    let '(n, b, sunk) := run next buffer l in
    sunk = map data sp' /\ Inv (l ++ got) (sp ++ sp') n b.
Proof.
  induction l as [|p rest IH]; intros got sp next buffer HI Hpos Hnd Hnew; simpl.
  - exists []. rewrite app_nil_r. auto.
  - inversion Hpos as [|? ? Hp Hpos']; subst.
    inversion Hnd as [|? ? Hnotin Hnd']; subst.
    destruct (receive_inv got sp next buffer p HI Hp) as [sp1 H1].
    { apply Hnew. now left. }
    destruct (receive next buffer p) as [[n1 b1] sunk1].
    destruct H1 as [-> HI1].
    destruct (IH (p :: got) (sp ++ sp1) n1 b1 HI1 Hpos' Hnd') as [sp2 H2].
    { intros q Hq [E|Hin].
      - apply Hnotin. rewrite E. now apply in_map.
      - apply (Hnew q); [now right|assumption]. }
    destruct (run n1 b1 rest) as [[n2 b2] sunk2].
    destruct H2 as [-> HI2].
    exists (sp1 ++ sp2). split; [now rewrite map_app|].
    rewrite app_assoc.
    eapply Inv_perm; [|exact HI2].
    symmetry. apply Permutation_middle.
Qed.

(** Packets with pairwise different [seq] are determined by their order of [seq]. *)
Lemma perm_same_seq_eq l1 : forall l2,
  NoDup (map seq l1) -> Permutation l1 l2 -> map seq l1 = map seq l2 -> l1 = l2.
Proof.
  induction l1 as [|a l1 IH]; intros [|b l2] Hnd HP Hseq; simpl in *;
    try discriminate; [reflexivity|].
  injection Hseq as Hab Hrest.
  inversion Hnd as [|? ? Hnotin Hnd']; subst.
  assert (a = b).
  { assert (Hin : In a (b :: l2)) by (eapply Permutation_in; [exact HP|now left]).
    destruct Hin as [->|Hin]; [reflexivity|].
    exfalso. apply Hnotin. rewrite Hrest. now apply in_map. }
  subst b. f_equal. apply IH; auto.
  eapply Permutation_cons_inv; exact HP.
Qed.

(** Reassembly at the level of the buffer: any arrival order of the packets
    numbered [0 .. N-1] sinks their chunks in the order of numbering. *)
Lemma run_permutation chunks l :
  Permutation l (numbered 0 chunks) ->
  run 0 [] l = (Z.of_nat (List.length chunks), [], chunks).
Proof.
  intros HP.
  assert (Hseqs : Permutation (map seq l) (consecutive 0 (List.length chunks))).
  { rewrite <- numbered_seq. now apply Permutation_map. }
  destruct (run_inv l [] [] 0 [] Inv_init) as [sp H].
  { rewrite Forall_forall. intros p Hp.
    assert (In (seq p) (consecutive 0 (List.length chunks)))
      by (eapply Permutation_in; [exact Hseqs|now apply in_map]).
    rewrite consecutive_In in *. lia. }
  { eapply Permutation_NoDup; [symmetry; exact Hseqs|apply consecutive_nodup]. }
  { intros p _ []. }
  destruct (run 0 [] l) as [[n b] sunk].
  destruct H as [-> [Hnd Hsunk Hnext Hperm Hsorted Hfuture]].
  rewrite app_nil_r in *. simpl in *.
  set (k := List.length sp) in *.
  set (N := List.length chunks) in *.
  assert (Hlen : (k + List.length b = N)%nat).
  { unfold k, N. rewrite <- length_app.
    rewrite (Permutation_length Hperm), (Permutation_length HP).
    rewrite <- (length_map seq), numbered_seq. apply consecutive_length. }
  assert (Hk : ~ (k < N)%nat).
  { intros Hlt.
    assert (Hin : In (Z.of_nat k) (map seq (sp ++ b))).
    { eapply Permutation_in.
      - symmetry. etransitivity; [apply Permutation_map; exact Hperm|exact Hseqs].
      - rewrite consecutive_In. lia. }
    rewrite map_app, in_app_iff, Hsunk, consecutive_In in Hin.
    destruct Hin as [Hin|Hin]; [fold k in Hin; lia|].
    rewrite in_map_iff in Hin. destruct Hin as (q & Hq & Hqb).
    rewrite Forall_forall in Hfuture. specialize (Hfuture q Hqb). lia. }
  assert (k = N) by lia.
  assert (b = []) by (apply length_zero_iff_nil; lia).
  subst b. rewrite app_nil_r in Hperm.
  assert (sp = numbered 0 chunks).
  { apply perm_same_seq_eq.
    - rewrite Hsunk. apply consecutive_nodup.
    - now rewrite Hperm.
    - rewrite Hsunk, numbered_seq. fold k N. congruence. }
  subst sp. rewrite numbered_data. repeat f_equal. lia.
Qed.

(** A packet older than the counter at the front keeps the loop from running. *)
Lemma drain_blocked next buffer q :
  StronglySorted seq_le buffer -> In q buffer -> seq q < next ->
  drain next buffer = (next, buffer, []).
Proof.
  intros Hs Hin Hq. destruct buffer as [|h t]; [destruct Hin|].
  inversion Hs as [|? ? _ Hh]; subst. simpl.
  assert (seq h <= seq q).
  { destruct Hin as [->|Hin]; [lia|].
    rewrite Forall_forall in Hh. exact (Hh q Hin). }
  destruct (Z.eqb_spec (seq h) next); [lia|reflexivity].
Qed.

Lemma receive_blocked next buffer p q :
  In q (buffer ++ [p]) -> seq q < next ->
  receive next buffer p = (next, sort (buffer ++ [p]), []).
Proof.
  intros Hin Hq. unfold receive.
  apply (drain_blocked next _ q); [apply sort_sorted| |assumption].
  eapply Permutation_in; [apply sort_perm|assumption].
Qed.

(** Once the buffer holds a packet older than the counter, nothing is sunk any
    more and nothing leaves the buffer. *)
Lemma run_blocked l : forall next buffer q,
  In q buffer -> seq q < next ->
  exists buffer',
    run next buffer l = (next, buffer', []) /\
    forall r, In r buffer \/ In r l -> In r buffer'.
Proof.
  induction l as [|p rest IH]; intros next buffer q Hin Hq; cbn [run].
  - exists buffer. split; [reflexivity|]. intros r [H|[]]; exact H.
  - rewrite (receive_blocked next buffer p q); [|apply in_or_app; now left|assumption].
    destruct (IH next (sort (buffer ++ [p])) q) as (b' & Hrun & Hkeep).
    { eapply Permutation_in; [apply sort_perm|]. apply in_or_app; now left. }
    { assumption. }
    exists b'. rewrite Hrun. split; [reflexivity|].
    intros r Hr. apply Hkeep.
    destruct Hr as [Hr|[->|Hr]].
    + left. eapply Permutation_in; [apply sort_perm|]. apply in_or_app; now left.
    + left. eapply Permutation_in; [apply sort_perm|]. apply in_or_app; right; now left.
    + now right.
Qed.

End SequencerFacts.

(** ** Reassembly by the two listeners *)

Section Reassembly.

Variable a : Target.args.
Variable prefix : string.

(** [shell.onMessage] on its own topic is the buffer's [receive], with
    [shell.process.write] as sink. *)
Lemma target_listener_receive k p sh :
  Target.onMessage a k (Target.topicTtyIn a k) (Parsed p) sh =
  let '(n, b, sunk) := Sequencer.receive (Target.seqIn sh) (Target.bufferIn sh) p in
  Done tt
    {| Target.process := Target.process sh; Target.seqIn := n;
       Target.seqOut := Target.seqOut sh; Target.bufferIn := b |}
    (map (PtyWrite (Target.process sh)) sunk).
Proof.
  unfold Target.onMessage. rewrite String.eqb_refl. cbn [negb].
  unfold bind, parse, get, put, ret. cbn [JSON_parse].
  now destruct (Sequencer.receive (Target.seqIn sh) (Target.bufferIn sh) p)
    as [[n b] sunk].
Qed.

Lemma target_listener_run k l : forall sh,
  for_each l (fun p => Target.onMessage a k (Target.topicTtyIn a k) (Parsed p)) sh =
  let '(n, b, sunk) := Sequencer.run (Target.seqIn sh) (Target.bufferIn sh) l in
  Done tt
    {| Target.process := Target.process sh; Target.seqIn := n;
       Target.seqOut := Target.seqOut sh; Target.bufferIn := b |}
    (map (PtyWrite (Target.process sh)) sunk).
Proof.
  induction l as [|p rest IH]; intros sh; cbn [for_each Sequencer.run].
  - now destruct sh.
  - unfold bind. rewrite target_listener_receive.
    destruct (Sequencer.receive (Target.seqIn sh) (Target.bufferIn sh) p)
      as [[n1 b1] sunk1].
    rewrite IH. cbn [Target.seqIn Target.bufferIn Target.process Target.seqOut].
    destruct (Sequencer.run n1 b1 rest) as [[n2 b2] sunk2].
    now rewrite map_app.
Qed.

(** The same for [onMessage] of a connection, with [_wsClient.send] as sink. *)
Lemma master_listener_receive p c :
  Master.listening c = true ->
  Master.step prefix (Master.EvMessage (Master.topicTtyOut prefix c) (Parsed p)) c =
  let '(n, b, sunk) := Sequencer.receive (Master.seqOut c) (Master.bufferOut c) p in
  Done tt
    {| Master.targetId := Master.targetId c; Master.ttyId := Master.ttyId c;
       Master.isAlive := Master.isAlive c; Master.heartbeat := Master.heartbeat c;
       Master.seqIn := Master.seqIn c; Master.seqOut := n;
       Master.bufferOut := b; Master.listening := Master.listening c |}
    (map WsSend sunk).
Proof.
  intros Hl. unfold Master.step, Master.onMessage.
  unfold bind at 1, get at 1. rewrite Hl.
  unfold bind at 1, get at 1. rewrite String.eqb_refl. cbn [negb].
  unfold bind, parse, put, ret. cbn [JSON_parse].
  destruct (Sequencer.receive (Master.seqOut c) (Master.bufferOut c) p)
    as [[n b] sunk].
  now rewrite Hl.
Qed.

Lemma master_listener_run l : forall c t,
  Master.listening c = true ->
  t = Master.topicTtyOut prefix c ->
  Master.run prefix (map (fun p => Master.EvMessage t (Parsed p)) l) c =
  let '(n, b, sunk) := Sequencer.run (Master.seqOut c) (Master.bufferOut c) l in
  Done tt
    {| Master.targetId := Master.targetId c; Master.ttyId := Master.ttyId c;
       Master.isAlive := Master.isAlive c; Master.heartbeat := Master.heartbeat c;
       Master.seqIn := Master.seqIn c; Master.seqOut := n;
       Master.bufferOut := b; Master.listening := Master.listening c |}
    (map WsSend sunk).
Proof.
  unfold Master.run.
  induction l as [|p rest IH]; intros c t Hl Ht; cbn [map for_each Sequencer.run].
  - now destruct c.
  - unfold bind. rewrite Ht at 1. rewrite (master_listener_receive p c Hl).
    destruct (Sequencer.receive (Master.seqOut c) (Master.bufferOut c) p)
      as [[n1 b1] sunk1].
    rewrite IH; [|assumption|now rewrite Ht].
    cbn [Master.seqOut Master.bufferOut Master.targetId Master.ttyId
         Master.isAlive Master.heartbeat Master.seqIn Master.listening].
    destruct (Sequencer.run n1 b1 rest) as [[n2 b2] sunk2].
    now rewrite map_app.
Qed.

(** C1.  Whatever the order in which the packets numbered [0 .. N-1] arrive,
    each once, the listener of a fresh session hands their chunks to its sink
    in the order of numbering, each once, and keeps nothing buffered: this
    holds for [shell.onMessage] of the target (sink: the pty process) and for
    [onMessage] of the master (sink: the websocket). *)
Theorem reassembly_in_seq_order (chunks : list string) (l : list packet)
    (k : Target.key) (p : pid) (c : Master.conn) :
  Permutation l (Sequencer.numbered 0 chunks) ->
  Master.listening c = true ->
  Master.seqOut c = 0 ->
  Master.bufferOut c = [] ->
  for_each l (fun q => Target.onMessage a k (Target.topicTtyIn a k) (Parsed q))
    {| Target.process := p; Target.seqIn := 0; Target.seqOut := 0; Target.bufferIn := [] |} =
  Done tt
    {| Target.process := p; Target.seqIn := Z.of_nat (List.length chunks);
       Target.seqOut := 0; Target.bufferIn := [] |}
    (map (PtyWrite p) chunks)
  /\
  Master.run prefix
    (map (fun q => Master.EvMessage (Master.topicTtyOut prefix c) (Parsed q)) l) c =
  Done tt
    {| Master.targetId := Master.targetId c; Master.ttyId := Master.ttyId c;
       Master.isAlive := Master.isAlive c; Master.heartbeat := Master.heartbeat c;
       Master.seqIn := Master.seqIn c; Master.seqOut := Z.of_nat (List.length chunks);
       Master.bufferOut := []; Master.listening := true |}
    (map WsSend chunks).
Proof.
  intros HP Hl Hs Hb. split.
  - rewrite target_listener_run. simpl.
    now rewrite (SequencerFacts.run_permutation chunks l HP).
  - rewrite (master_listener_run l c _ Hl eq_refl), Hs, Hb, Hl.
    now rewrite (SequencerFacts.run_permutation chunks l HP).
Qed.

(** C2, as the code has it.  Neither listener has a discard step: a packet
    whose [seq] is below the counter is pushed like any other, sorts to the
    front of the buffer and stays there.  It is not handed to the sink and the
    counter does not move, and whatever arrives after it is buffered too and
    never reaches the sink. *)
Theorem stale_packet_is_kept_and_blocks (k : Target.key) (sh : Target.shell)
    (c : Master.conn) (p : packet) (l : list packet) :
  seq p < Target.seqIn sh ->
  seq p < Master.seqOut c ->
  Master.listening c = true ->
  (exists b,
     for_each (p :: l)
       (fun q => Target.onMessage a k (Target.topicTtyIn a k) (Parsed q)) sh =
     Done tt
       {| Target.process := Target.process sh; Target.seqIn := Target.seqIn sh;
          Target.seqOut := Target.seqOut sh; Target.bufferIn := b |} [] /\
     forall r, In r (Target.bufferIn sh) \/ In r (p :: l) -> In r b)
  /\
  (exists b,
     Master.run prefix
       (map (fun q => Master.EvMessage (Master.topicTtyOut prefix c) (Parsed q)) (p :: l)) c =
     Done tt
       {| Master.targetId := Master.targetId c; Master.ttyId := Master.ttyId c;
          Master.isAlive := Master.isAlive c; Master.heartbeat := Master.heartbeat c;
          Master.seqIn := Master.seqIn c; Master.seqOut := Master.seqOut c;
          Master.bufferOut := b; Master.listening := true |} [] /\
     forall r, In r (Master.bufferOut c) \/ In r (p :: l) -> In r b).
Proof.
  intros Ht Hm Hl. split.
  - rewrite target_listener_run. cbn [Sequencer.run].
    rewrite (SequencerFacts.receive_blocked _ _ p p);
      [|apply in_or_app; right; now left|assumption].
    destruct (SequencerFacts.run_blocked l (Target.seqIn sh)
                (Sequencer.sort (Target.bufferIn sh ++ [p])) p) as (b & Hrun & Hkeep).
    { eapply Permutation_in; [apply SequencerFacts.sort_perm|].
      apply in_or_app; right; now left. }
    { assumption. }
    exists b. rewrite Hrun. split; [reflexivity|].
    intros r Hr. apply Hkeep. destruct Hr as [Hr|[->|Hr]].
    + left. eapply Permutation_in; [apply SequencerFacts.sort_perm|].
      apply in_or_app; now left.
    + left. eapply Permutation_in; [apply SequencerFacts.sort_perm|].
      apply in_or_app; right; now left.
    + now right.
  - rewrite (master_listener_run (p :: l) c _ Hl eq_refl). cbn [Sequencer.run].
    rewrite (SequencerFacts.receive_blocked _ _ p p);
      [|apply in_or_app; right; now left|assumption].
    destruct (SequencerFacts.run_blocked l (Master.seqOut c)
                (Sequencer.sort (Master.bufferOut c ++ [p])) p) as (b & Hrun & Hkeep).
    { eapply Permutation_in; [apply SequencerFacts.sort_perm|].
      apply in_or_app; right; now left. }
    { assumption. }
    exists b. rewrite Hrun, Hl. split; [reflexivity|].
    intros r Hr. apply Hkeep. destruct Hr as [Hr|[->|Hr]].
    + left. eapply Permutation_in; [apply SequencerFacts.sort_perm|].
      apply in_or_app; now left.
    + left. eapply Permutation_in; [apply SequencerFacts.sort_perm|].
      apply in_or_app; right; now left.
    + now right.
Qed.

(** X3.  With [seq 0] and [seq 2] received, in either order, and [seq 1]
    never, the sink gets the chunk of [seq 0] alone and [seq 2] waits in the
    buffer. *)
Theorem partial_reassembly_stalls (k : Target.key) (p : pid) (d0 d2 : string) :
  let fresh := {| Target.process := p; Target.seqIn := 0; Target.seqOut := 0;
                  Target.bufferIn := [] |} in
  let stalled := {| Target.process := p; Target.seqIn := 1; Target.seqOut := 0;
                    Target.bufferIn := [mkPacket 2 d2] |} in
  for_each [mkPacket 0 d0; mkPacket 2 d2]
    (fun q => Target.onMessage a k (Target.topicTtyIn a k) (Parsed q)) fresh =
    Done tt stalled [PtyWrite p d0]
  /\ for_each [mkPacket 2 d2; mkPacket 0 d0]
    (fun q => Target.onMessage a k (Target.topicTtyIn a k) (Parsed q)) fresh =
    Done tt stalled [PtyWrite p d0].
Proof. split; rewrite target_listener_run; reflexivity. Qed.

(** X4.  The sending side numbers what it publishes from its counter on, one
    by one: the chunks the pty process emits go to the out topic as the
    packets numbered [seqOut, seqOut + 1, ...], and the counter ends that many
    higher; the same holds for what the websocket client sends, on the in
    topic. *)
Theorem outbound_packets_are_numbered (k : Target.key) (chunks : list string) :
  (forall sh,
     for_each chunks (Target.onData a k) sh =
     Done tt
       {| Target.process := Target.process sh; Target.seqIn := Target.seqIn sh;
          Target.seqOut := Target.seqOut sh + Z.of_nat (List.length chunks);
          Target.bufferIn := Target.bufferIn sh |}
       (map (fun q => Publish (Target.topicTtyOut a k) (json_of_packet q) 0)
          (Sequencer.numbered (Target.seqOut sh) chunks)))
  /\ (forall c,
        Master.run prefix (map Master.EvWsMessage chunks) c =
        Done tt
          {| Master.targetId := Master.targetId c; Master.ttyId := Master.ttyId c;
             Master.isAlive := Master.isAlive c; Master.heartbeat := Master.heartbeat c;
             Master.seqIn := Master.seqIn c + Z.of_nat (List.length chunks);
             Master.seqOut := Master.seqOut c;
             Master.bufferOut := Master.bufferOut c;
             Master.listening := Master.listening c |}
          (map (fun q => Publish (Master.topicTtyIn prefix c) (json_of_packet q) 0)
             (Sequencer.numbered (Master.seqIn c) chunks))).
Proof.
  split.
  - induction chunks as [|d rest IH]; intros sh.
    + cbn. destruct sh. cbn. now rewrite Z.add_0_r.
    + cbn [for_each Sequencer.numbered map List.length]. unfold bind.
      unfold Target.onData at 1. unfold bind, get, put, emit.
      rewrite IH. cbn [Target.process Target.seqIn Target.seqOut Target.bufferIn app].
      replace (Target.seqOut sh + 1 + Z.of_nat (List.length rest))
        with (Target.seqOut sh + Z.of_nat (S (List.length rest))) by lia.
      reflexivity.
  - unfold Master.run.
    induction chunks as [|d rest IH]; intros c.
    + cbn. destruct c. cbn. now rewrite Z.add_0_r.
    + cbn [for_each Sequencer.numbered map List.length]. unfold bind.
      cbn [Master.step]. unfold Master.on_ws_message at 1. unfold bind, get, put, emit.
      rewrite IH.
      cbn [Master.targetId Master.ttyId Master.isAlive Master.heartbeat Master.seqIn
           Master.seqOut Master.bufferOut Master.listening app].
      replace (Master.seqIn c + 1 + Z.of_nat (List.length rest))
        with (Master.seqIn c + Z.of_nat (S (List.length rest))) by lia.
      reflexivity.
Qed.

End Reassembly.

Lemma reassembly_in_seq_order_witness :
  Permutation [Demo.p2; Demo.p0; Demo.p1] (Sequencer.numbered 0 ["l"; "s"; "!"])
  /\ Demo.to_shell [Demo.p2; Demo.p0; Demo.p1] Demo.fresh_shell =
     Done tt
       {| Target.process := 0%nat; Target.seqIn := 3; Target.seqOut := 0;
          Target.bufferIn := [] |}
       [PtyWrite 0%nat "l"; PtyWrite 0%nat "s"; PtyWrite 0%nat "!"]
  /\ Demo.to_client [Demo.p2; Demo.p0; Demo.p1] Demo.fresh_conn =
     Done tt
       {| Master.targetId := "11111111-1111-1111-1111-111111111111";
          Master.ttyId := Demo.session;
          Master.isAlive := true; Master.heartbeat := true;
          Master.seqIn := 0; Master.seqOut := 3;
          Master.bufferOut := []; Master.listening := true |}
       [WsSend "l"; WsSend "s"; WsSend "!"].
Proof.
  assert (HP : Permutation [Demo.p2; Demo.p0; Demo.p1]
                 (Sequencer.numbered 0 ["l"; "s"; "!"])).
  { apply perm_trans with [Demo.p0; Demo.p2; Demo.p1];
      [apply perm_swap|apply perm_skip, perm_swap]. }
  split; [exact HP|].
  exact (reassembly_in_seq_order Demo.target_args "shell/" ["l"; "s"; "!"]
           [Demo.p2; Demo.p0; Demo.p1] (Some Demo.session) 0%nat Demo.fresh_conn
           HP eq_refl eq_refl eq_refl).
Defined.

(** C2 as the specification words it fails: after [seq 0] went to the sink, a
    second copy of it is kept in the buffer, and the packet [seq 1] that
    follows is not handed over, while without the copy it is. *)
Lemma stale_packet_counterexample :
  Demo.to_shell [Demo.p0; Demo.p0; Demo.p1] Demo.fresh_shell =
    Done tt
      {| Target.process := 0%nat; Target.seqIn := 1; Target.seqOut := 0;
         Target.bufferIn := [Demo.p0; Demo.p1] |}
      [PtyWrite 0%nat "l"]
  /\ Demo.to_shell [Demo.p0; Demo.p1] Demo.fresh_shell =
    Done tt
      {| Target.process := 0%nat; Target.seqIn := 2; Target.seqOut := 0;
         Target.bufferIn := [] |}
      [PtyWrite 0%nat "l"; PtyWrite 0%nat "s"]
  /\ Demo.to_client [Demo.p0; Demo.p0; Demo.p1] Demo.fresh_conn <>
     Demo.to_client [Demo.p0; Demo.p1] Demo.fresh_conn.
Proof.
  split; [reflexivity|]. split; [reflexivity|].
  vm_compute. discriminate.
Qed.

Lemma stale_packet_is_kept_and_blocks_witness :
  seq Demo.p0 < 1
  /\ exists b,
       Demo.to_shell [Demo.p0; Demo.p1]
         {| Target.process := 0%nat; Target.seqIn := 1; Target.seqOut := 0;
            Target.bufferIn := [] |} =
       Done tt
         {| Target.process := 0%nat; Target.seqIn := 1; Target.seqOut := 0;
            Target.bufferIn := b |} []
       /\ In Demo.p1 b.
Proof.
  split; [reflexivity|].
  destruct (stale_packet_is_kept_and_blocks Demo.target_args "shell/"
              (Some Demo.session)
              {| Target.process := 0%nat; Target.seqIn := 1; Target.seqOut := 0;
                 Target.bufferIn := [] |}
              {| Master.targetId := "11111111-1111-1111-1111-111111111111";
                 Master.ttyId := Demo.session;
                 Master.isAlive := true; Master.heartbeat := true;
                 Master.seqIn := 0; Master.seqOut := 1;
                 Master.bufferOut := []; Master.listening := true |}
              Demo.p0 [Demo.p1] eq_refl eq_refl eq_refl) as [[b [Hrun Hkeep]] _].
  exists b. split; [exact Hrun|].
  apply Hkeep. right. right. now left.
Defined.

(** ** Topic names *)

Module TopicFacts.
Import Topics.

Lemma append_assoc (x y z : string) : ((x ++ y) ++ z = x ++ (y ++ z))%string.
Proof. induction x as [|c x IH]; simpl; [reflexivity|now rewrite IH]. Qed.

Lemma append_length (x y : string) :
  String.length (x ++ y) = (String.length x + String.length y)%nat.
Proof. induction x as [|c x IH]; simpl; [reflexivity|now rewrite IH]. Qed.

Lemma append_cancel_l (x y z : string) : (x ++ y = x ++ z)%string -> y = z.
Proof.
  induction x as [|c x IH]; simpl; intros H; [exact H|].
  injection H as H. now apply IH.
Qed.

(** Two strings of the same length at the front of equal strings are equal,
    and so is what follows them. *)
Lemma append_same_length (x x' y y' : string) :
  String.length x = String.length x' ->
  (x ++ y = x' ++ y')%string -> x = x' /\ y = y'.
Proof.
  revert x'. induction x as [|c x IH]; intros [|c' x'] Hlen H; simpl in *;
    try discriminate.
  - now split.
  - injection H as -> H. injection Hlen as Hlen.
    destruct (IH x' Hlen H) as [-> ->]. now split.
Qed.

Lemma hexes_length k : forall s r,
  Pattern.hexes k s = Some r -> String.length s = (k + String.length r)%nat.
Proof.
  induction k as [|k IH]; intros s r H; simpl in *.
  - now injection H as ->.
  - destruct s as [|c s]; [discriminate|].
    destruct (Pattern.is_hex c); [|discriminate].
    simpl. now rewrite (IH _ _ H).
Qed.

Lemma group_length k s r :
  Pattern.group k s = Some r -> String.length s = (S k + String.length r)%nat.
Proof.
  unfold Pattern.group. destruct s as [|c s]; [discriminate|].
  destruct (Ascii.eqb c "-"); [|discriminate].
  intros H. simpl. now rewrite (hexes_length _ _ _ H).
Qed.

Lemma PATTERN_UUID_at_length s r :
  Pattern.PATTERN_UUID_at s = Some r -> String.length s = (36 + String.length r)%nat.
Proof.
  unfold Pattern.PATTERN_UUID_at, Pattern.and_then. intros H.
  destruct (Pattern.hexes 8 s) as [s1|] eqn:H1; [|discriminate].
  destruct (Pattern.group 4 s1) as [s2|] eqn:H2; [|discriminate].
  destruct (Pattern.group 4 s2) as [s3|] eqn:H3; [|discriminate].
  destruct (Pattern.group 4 s3) as [s4|] eqn:H4; [|discriminate].
  apply hexes_length in H1. apply group_length in H2, H3, H4, H.
  lia.
Qed.

Lemma is_uuid_length s : Pattern.is_uuid s = true -> String.length s = 36%nat.
Proof.
  unfold Pattern.is_uuid.
  destruct (Pattern.PATTERN_UUID_at s) as [[|c r]|] eqn:H; try discriminate.
  intros _. now rewrite (PATTERN_UUID_at_length _ _ H).
Qed.

(** A UUID passes the validators' test. *)
Lemma is_uuid_test s : Pattern.is_uuid s = true -> Pattern.test s = true.
Proof.
  unfold Pattern.is_uuid. intros H.
  destruct (Pattern.PATTERN_UUID_at s) as [r|] eqn:E; [|discriminate].
  destruct s as [|c s]; [discriminate E|].
  change (Pattern.test (String c s))
    with (match Pattern.PATTERN_UUID_at (String c s) with
          | Some _ => true
          | None => Pattern.test s
          end).
  now rewrite E.
Qed.

Lemma append_empty_r (x : string) : (x ++ "")%string = x.
Proof. induction x as [|c x IH]; simpl; [reflexivity|now rewrite IH]. Qed.

Lemma target_topics_shape prefix T t :
  In t (target_topics prefix T) ->
  exists e, In e endings /\ t = (prefix ++ T ++ e)%string.
Proof.
  unfold target_topics, topicList, topicCreate, topicRemove, topic, endings.
  intros [<-|[<-|[<-|[<-|[]]]]].
  - exists ""%string. split; [now left|]. now rewrite append_empty_r.
  - exists "/list"%string. split; [right; now left|]. apply append_assoc.
  - exists "/create"%string. split; [right; right; now left|]. apply append_assoc.
  - exists "/remove"%string. split; [right; right; right; now left|]. apply append_assoc.
Qed.

Lemma session_topics_shape prefix T S t :
  In t (session_topics prefix T S) ->
  exists e, In e (session_endings S) /\ t = (prefix ++ T ++ e)%string.
Proof.
  unfold session_topics, topicTtyIn, topicTtyOut, topicTty, topic, session_endings.
  intros [<-|[<-|[]]].
  - exists ("/" ++ S ++ "/in")%string. split; [now left|].
    now rewrite !append_assoc.
  - exists ("/" ++ S ++ "/out")%string. split; [right; now left|].
    now rewrite !append_assoc.
Qed.

Lemma short_ending e : In e endings -> (String.length e <= 7)%nat.
Proof.
  unfold endings. intros [<-|[<-|[<-|[<-|[]]]]]; simpl; lia.
Qed.

Lemma session_ending_length S e :
  In e (session_endings S) -> String.length e = (String.length S + 4)%nat \/
                              String.length e = (String.length S + 5)%nat.
Proof.
  unfold session_endings. intros [<-|[<-|[]]]; simpl; rewrite append_length; simpl; lia.
Qed.

(** C9, as the code has it.  For UUIDs (the whole identifier is
    [8-4-4-4-12] lowercase hexadecimal digits) and a fixed prefix, two
    different pairs of target and session never share an in or out topic, nor
    is the in or out topic of one pair any topic of the other; the four topics
    of the target ([base], list, create, remove) do not depend on the session,
    so pairs with the same target share them, and pairs with different targets
    share no topic at all. *)
Theorem session_topics_are_unique (prefix T1 S1 T2 S2 : string) :
  Pattern.is_uuid T1 = true -> Pattern.is_uuid S1 = true ->
  Pattern.is_uuid T2 = true -> Pattern.is_uuid S2 = true ->
  (T1, S1) <> (T2, S2) ->
  (forall t, In t (session_topics prefix T1 S1) -> ~ In t (derived prefix T2 S2))
  /\ (T1 <> T2 ->
      forall t, In t (derived prefix T1 S1) -> ~ In t (derived prefix T2 S2))
  /\ (T1 = T2 -> target_topics prefix T1 = target_topics prefix T2).
Proof.
  intros HT1 HS1 HT2 HS2 Hne.
  pose proof (is_uuid_length _ HT1) as LT1.
  pose proof (is_uuid_length _ HS1) as LS1.
  pose proof (is_uuid_length _ HT2) as LT2.
  pose proof (is_uuid_length _ HS2) as LS2.
  assert (Hsplit : forall e1 e2,
             (prefix ++ T1 ++ e1 = prefix ++ T2 ++ e2)%string -> T1 = T2 /\ e1 = e2).
  { intros e1 e2 H. apply append_cancel_l in H.
    apply append_same_length in H; [exact H|congruence]. }
  split; [|split].
  - intros t H1 H2.
    apply session_topics_shape in H1. destruct H1 as (e1 & He1 & ->).
    unfold derived in H2. apply in_app_or in H2. destruct H2 as [H2|H2].
    + apply target_topics_shape in H2. destruct H2 as (e2 & He2 & H2).
      apply Hsplit in H2. destruct H2 as [_ <-].
      apply short_ending in He2. apply session_ending_length in He1. lia.
    + apply session_topics_shape in H2. destruct H2 as (e2 & He2 & H2).
      apply Hsplit in H2. destruct H2 as [-> <-].
      apply Hne. f_equal.
      unfold session_endings in He1, He2.
      destruct He1 as [<-|[<-|[]]]; destruct He2 as [H|[H|[]]];
        injection H as H;
        apply append_same_length in H; try congruence;
        destruct H as [H H']; try discriminate; now symmetry.
  - intros HneT t H1 H2.
    assert (exists e1, t = (prefix ++ T1 ++ e1)%string) as [e1 ->].
    { unfold derived in H1. apply in_app_or in H1. destruct H1 as [H1|H1].
      - apply target_topics_shape in H1. destruct H1 as (e & _ & ->). now exists e.
      - apply session_topics_shape in H1. destruct H1 as (e & _ & ->). now exists e. }
    assert (exists e2, (prefix ++ T1 ++ e1 = prefix ++ T2 ++ e2)%string) as [e2 H].
    { unfold derived in H2. apply in_app_or in H2. destruct H2 as [H2|H2].
      - apply target_topics_shape in H2. destruct H2 as (e & _ & H). now exists e.
      - apply session_topics_shape in H2. destruct H2 as (e & _ & H). now exists e. }
    apply Hsplit in H. now destruct H.
  - now intros ->.
Qed.

End TopicFacts.

(** What [PATTERN_UUID] accepts. *)
Example pattern_accepts_uuid :
  Pattern.test "11111111-1111-1111-1111-111111111111" = true
  /\ Pattern.is_uuid "11111111-1111-1111-1111-111111111111" = true.
Proof. split; reflexivity. Qed.

Example pattern_rejects_other_shapes :
  Pattern.test "" = false
  /\ Pattern.test "bash" = false
  /\ Pattern.test "11111111-1111-1111-1111-11111111111" = false
  /\ Pattern.test "1111111111111111-1111-1111-11111111111" = false
  /\ Pattern.test "AAAAAAAA-AAAA-AAAA-AAAA-AAAAAAAAAAAA" = false.
Proof. repeat split; reflexivity. Qed.

(** The pattern is not anchored: text around a UUID does not make it fail. *)
Example pattern_is_not_anchored :
  Pattern.test "x11111111-1111-1111-1111-111111111111/y" = true
  /\ Pattern.is_uuid "x11111111-1111-1111-1111-111111111111/y" = false.
Proof. split; reflexivity. Qed.

(** C9 as the specification words it fails: two sessions of one target are
    different pairs, and [base/list] is a derived topic of both. *)
Lemma shared_target_topics_counterexample :
  Pattern.is_uuid (Target.arg_id Demo.target_args) = true
  /\ Pattern.is_uuid Demo.session = true
  /\ Pattern.is_uuid Demo.other_session = true
  /\ (Target.arg_id Demo.target_args, Demo.session) <>
     (Target.arg_id Demo.target_args, Demo.other_session)
  /\ In "shell/11111111-1111-1111-1111-111111111111/list"
       (Topics.derived "shell/" (Target.arg_id Demo.target_args) Demo.session)
  /\ In "shell/11111111-1111-1111-1111-111111111111/list"
       (Topics.derived "shell/" (Target.arg_id Demo.target_args) Demo.other_session).
Proof.
  repeat split; try reflexivity; try discriminate;
    right; left; reflexivity.
Qed.

Lemma session_topics_are_unique_witness :
  (Target.arg_id Demo.target_args, Demo.session) <>
  (Target.arg_id Demo.target_args, Demo.other_session)
  /\ forall t,
       In t (Topics.session_topics "shell/" (Target.arg_id Demo.target_args) Demo.session) ->
       ~ In t (Topics.derived "shell/" (Target.arg_id Demo.target_args) Demo.other_session).
Proof.
  split; [discriminate|].
  exact (proj1 (TopicFacts.session_topics_are_unique "shell/"
                  (Target.arg_id Demo.target_args) Demo.session
                  (Target.arg_id Demo.target_args) Demo.other_session
                  eq_refl eq_refl eq_refl eq_refl
                  ltac:(discriminate))).
Defined.

(** Identifiers that only contain a UUID pass the validators too, and for
    those even the in topics of different pairs can coincide. *)
Example topics_of_accepted_identifiers_can_collide :
  let u := "11111111-1111-1111-1111-111111111111" in
  let uu := "11111111-1111-1111-1111-111111111111/11111111-1111-1111-1111-111111111111" in
  Pattern.test u = true /\ Pattern.test uu = true
  /\ (uu, u) <> (u, uu)
  /\ Topics.session_topics "shell/" uu u = Topics.session_topics "shell/" u uu.
Proof. repeat split; try reflexivity. discriminate. Qed.

(** ** The session registry of the target *)

Module TargetFacts.
Import Target.

Lemma bind_Done {S A B} (c : M S A) (k : A -> M S B) s b s2 out :
  bind c k s = Done b s2 out ->
  exists x s1 out1 out2,
    c s = Done x s1 out1 /\ k x s1 = Done b s2 out2 /\ out = out1 ++ out2.
Proof.
  unfold bind. destruct (c s) as [x s1 out1|e s1 out1]; [|discriminate].
  destruct (k x s1) as [b' s2' out2|e s2' out2] eqn:E; [|discriminate].
  intros H. injection H as -> -> <-. now exists x, s1, out1, out2.
Qed.

Lemma key_eqb_eq k1 k2 : key_eqb k1 k2 = true <-> k1 = k2.
Proof.
  destruct k1 as [s1|], k2 as [s2|]; simpl; try (split; congruence).
  rewrite String.eqb_eq. split; congruence.
Qed.

Lemma key_eqb_refl k : key_eqb k k = true.
Proof. now apply key_eqb_eq. Qed.

Lemma key_eqb_neq k1 k2 : key_eqb k1 k2 = false <-> k1 <> k2.
Proof.
  rewrite <- key_eqb_eq. destruct (key_eqb k1 k2); split; congruence.
Qed.

Lemma bindings_keys m : map fst (bindings m) = map_keys m.
Proof. unfold bindings, map_keys. rewrite map_map. reflexivity. Qed.

Lemma map_get_In {V} k (v : V) m : map_get k m = Some v -> In (k, v) m.
Proof.
  induction m as [|[k' v'] m IH]; simpl; [discriminate|].
  destruct (key_eqb k' k) eqn:E.
  - apply key_eqb_eq in E. intros H. injection H as ->. subst. now left.
  - intros H. right. now apply IH.
Qed.

Lemma map_get_None {V} k (m : list (key * V)) :
  map_get k m = None <-> ~ In k (map_keys m).
Proof.
  induction m as [|[k' v'] m IH]; simpl; [tauto|].
  destruct (key_eqb k' k) eqn:E.
  - apply key_eqb_eq in E. split; [discriminate|]. intros H. exfalso. apply H. now left.
  - apply key_eqb_neq in E. rewrite IH. tauto.
Qed.

Lemma In_map_get {V} k (v : V) m :
  NoDup (map_keys m) -> In (k, v) m -> map_get k m = Some v.
Proof.
  induction m as [|[k' v'] m IH]; simpl; intros Hnd Hin; [destruct Hin|].
  inversion Hnd as [|? ? Hnotin Hnd']; subst.
  destruct Hin as [H|Hin].
  - injection H as -> ->. now rewrite key_eqb_refl.
  - destruct (key_eqb k' k) eqn:E.
    + apply key_eqb_eq in E. subst. exfalso. apply Hnotin.
      change k with (fst (k, v)). now apply in_map.
    + now apply IH.
Qed.

Lemma map_set_absent {V} k (v : V) m :
  map_get k m = None -> map_set k v m = m ++ [(k, v)].
Proof.
  induction m as [|[k' v'] m IH]; simpl; [reflexivity|].
  destruct (key_eqb k' k); [discriminate|].
  intros H. now rewrite IH.
Qed.

Lemma map_set_present k (v v0 : shell) m :
  map_get k m = Some v0 -> process v = process v0 ->
  bindings (map_set k v m) = bindings m.
Proof.
  induction m as [|[k' v'] m IH]; simpl; [discriminate|].
  destruct (key_eqb k' k) eqn:E.
  - intros H Hp. injection H as ->. simpl. now rewrite Hp.
  - intros H Hp. simpl. now rewrite IH.
Qed.

Lemma bindings_delete k m :
  bindings (map_delete k m) =
  filter (fun e => negb (key_eqb (fst e) k)) (bindings m).
Proof.
  unfold map_delete, bindings.
  induction m as [|[k' v'] m IH]; simpl; [reflexivity|].
  destruct (key_eqb k' k); simpl; now rewrite IH.
Qed.

Lemma NoDup_map_filter {A B} (f : A -> B) (g : A -> bool) l :
  NoDup (map f l) -> NoDup (map f (filter g l)).
Proof.
  induction l as [|x l IH]; simpl; intros H; [constructor|].
  inversion H as [|? ? Hnotin Hnd]; subst.
  destruct (g x); simpl; [|auto].
  constructor; [|auto].
  intros Hin. apply Hnotin.
  rewrite in_map_iff in *. destruct Hin as (y & Hy & Hin).
  apply filter_In in Hin. exists y. tauto.
Qed.

Lemma map_has_get {V} k (m : list (key * V)) :
  map_has k m = true <-> exists v, map_get k m = Some v.
Proof.
  unfold map_has. destruct (map_get k m) as [v|].
  - split; [now exists v|reflexivity].
  - split; [discriminate|]. intros [v H]. discriminate.
Qed.

Lemma wf_initial : wf initial.
Proof. split; simpl; constructor. Qed.

Lemma wf_same st st' :
  bindings (shells st') = bindings (shells st) ->
  spawned st' = spawned st ->
  wf st -> wf st'.
Proof. intros Hb Hs [H1 H2 H3]. split; rewrite ?Hb, ?Hs; assumption. Qed.

Lemma wf_created st st' k :
  map_get k (shells st) = None ->
  bindings (shells st') = bindings (shells st) ++ [(k, spawned st)] ->
  spawned st' = S (spawned st) ->
  wf st -> wf st'.
Proof.
  intros Hk Hb Hs [H1 H2 H3]. split; rewrite Hb, ?Hs.
  - rewrite map_app. simpl.
    apply NoDup_app; [assumption|repeat constructor; intros []|].
    intros x Hx [<-|[]].
    apply map_get_None in Hk. apply Hk. now rewrite <- bindings_keys.
  - rewrite map_app. simpl.
    apply NoDup_app; [assumption|repeat constructor; intros []|].
    intros x Hx [<-|[]].
    rewrite in_map_iff in Hx. destruct Hx as (e & He & Hin).
    rewrite Forall_forall in H3. specialize (H3 e Hin). simpl in H3. lia.
  - apply Forall_app. split.
    + eapply Forall_impl; [|exact H3]. intros e He. simpl in He. lia.
    + repeat constructor.
Qed.

Lemma wf_deleted st st' k :
  shells st' = map_delete k (shells st) ->
  spawned st' = spawned st ->
  wf st -> wf st'.
Proof.
  intros Hb Hs [H1 H2 H3]. split; rewrite Hb, ?Hs, bindings_delete.
  - now apply NoDup_map_filter.
  - now apply NoDup_map_filter.
  - apply Forall_forall. intros e He. apply filter_In in He.
    rewrite Forall_forall in H3. now apply H3.
Qed.

Lemma subscribed_incl t subs x : In x subs -> In x (subscribed t subs).
Proof.
  unfold subscribed. destruct (existsb _ subs); [auto|].
  intros H. apply in_or_app. now left.
Qed.

(** [ttyCreate], path by path. *)
Lemma ttyCreate_cases a msg st :
  ttyCreate a msg st =
  match msg with
  | Unparsable raw => Uncaught (SyntaxError raw) st []
  | Parsed params =>
      if negb (VALIDATOR_CREATE params)
      then Done tt st [Log Error "invalid params"]
      else if map_has (params_id params) (shells st)
      then Done tt st [Log Warn "shell already exists"]
      else
        Done tt (created a (params_id params) st)
          [Log Info "";
           Spawn (arg_shell a) (spawned st);
           Subscribe (topicTtyIn a (params_id params));
           Publish (topicList a)
             (JArr (map key_json (map_keys (shells (created a (params_id params) st))))) 1]
  end.
Proof.
  destruct msg as [raw|params]; [reflexivity|].
  unfold ttyCreate. unfold bind at 1. unfold parse. cbn [JSON_parse]. unfold ret at 1.
  destruct (VALIDATOR_CREATE params); cbn [negb]; [|reflexivity].
  unfold bind at 1. unfold get at 1.
  destruct (map_has (params_id params) (shells st)); reflexivity.
Qed.

(** [ttyRemove], path by path. *)
Lemma ttyRemove_cases a msg st :
  ttyRemove a msg st =
  match msg with
  | Unparsable raw => Uncaught (SyntaxError raw) st []
  | Parsed params =>
      if negb (VALIDATOR_REMOVE params)
      then Done tt st [Log Error "invalid params"]
      else
        match map_get (params_id params) (shells st) with
        | None => Done tt st [Log Warn "shell does not exist"]
        | Some sh => Done tt st [Log Info ""; Kill (process sh) 9]
        end
  end.
Proof.
  destruct msg as [raw|params]; [reflexivity|].
  unfold ttyRemove. unfold bind at 1. unfold parse. cbn [JSON_parse]. unfold ret at 1.
  destruct (VALIDATOR_REMOVE params); cbn [negb]; [|reflexivity].
  unfold bind at 1. unfold get at 1.
  destruct (map_get (params_id params) (shells st)); reflexivity.
Qed.

Lemma topicRemove_not_topicCreate a :
  String.eqb (topicRemove a) (topicCreate a) = false.
Proof.
  apply String.eqb_neq. unfold topicRemove, topicCreate, Topics.topicRemove,
    Topics.topicCreate. intros H.
  apply TopicFacts.append_cancel_l in H. discriminate.
Qed.

Lemma grows_refl st : grows st st.
Proof. split; [left|]; auto. Qed.

Lemma grows_same st st1 st2 :
  grows st st1 ->
  bindings (shells st2) = bindings (shells st1) ->
  spawned st2 = spawned st1 ->
  (forall t, In t (subscriptions st1) -> In t (subscriptions st2)) ->
  grows st st2.
Proof.
  intros [[[Hb Hs]|(k & Hk & Hb & Hs)] Hsub] Hb2 Hs2 Hsub2; split; auto.
  - left. split; congruence.
  - right. exists k. repeat split; congruence.
Qed.

Lemma ttyCreate_grows a msg st st' out :
  ttyCreate a msg st = Done tt st' out -> grows st st'.
Proof.
  rewrite ttyCreate_cases. destruct msg as [raw|params]; [discriminate|].
  destruct (negb (VALIDATOR_CREATE params)).
  { intros H. injection H as <- _. apply grows_refl. }
  destruct (map_has (params_id params) (shells st)) eqn:Hhas.
  { intros H. injection H as <- _. apply grows_refl. }
  intros H. injection H as <- _.
  assert (Hnone : map_get (params_id params) (shells st) = None).
  { unfold map_has in Hhas. now destruct (map_get _ _). }
  split.
  - right. exists (params_id params). split; [assumption|].
    split; [|reflexivity].
    cbn [created shells]. rewrite (map_set_absent _ _ _ Hnone).
    unfold bindings. now rewrite map_app.
  - intros t Ht. cbn [created subscriptions]. now apply subscribed_incl.
Qed.

Lemma ttyRemove_same a msg st st' out :
  ttyRemove a msg st = Done tt st' out -> st' = st.
Proof.
  rewrite ttyRemove_cases. destruct msg as [raw|params]; [discriminate|].
  destruct (negb (VALIDATOR_REMOVE params)); [congruence|].
  destruct (map_get _ _); congruence.
Qed.

Lemma control_grows a t msg st st' out :
  control a t msg st = Done tt st' out -> grows st st'.
Proof.
  unfold control. destruct (String.eqb t (topicCreate a)).
  - apply ttyCreate_grows.
  - destruct (String.eqb t (topicRemove a)).
    + intros H. apply ttyRemove_same in H. subst. apply grows_refl.
    + intros H. injection H as <- _. apply grows_refl.
Qed.

Lemma with_shell_same k (c : M shell unit) st st' out :
  (forall sh sh' o, c sh = Done tt sh' o -> process sh' = process sh) ->
  with_shell k c st = Done tt st' out ->
  bindings (shells st') = bindings (shells st)
  /\ spawned st' = spawned st
  /\ subscriptions st' = subscriptions st.
Proof.
  intros Hc. unfold with_shell.
  destruct (map_get k (shells st)) as [sh|] eqn:Hk.
  - destruct (c sh) as [[] sh' o|e sh' o] eqn:Hrun; [|discriminate].
    intros H. injection H as <- _. cbn [shells spawned subscriptions].
    repeat split. apply (map_set_present k sh' sh); [assumption|].
    now apply (Hc sh sh' o).
  - intros H. injection H as <- _. auto.
Qed.

Lemma for_each_with_shell_same (f : key -> M shell unit) keys : forall st st' out,
  (forall k sh sh' o, f k sh = Done tt sh' o -> process sh' = process sh) ->
  for_each keys (fun k => with_shell k (f k)) st = Done tt st' out ->
  bindings (shells st') = bindings (shells st)
  /\ spawned st' = spawned st
  /\ subscriptions st' = subscriptions st.
Proof.
  induction keys as [|k keys IH]; intros st st' out Hf; cbn [for_each].
  - intros H. injection H as <- _. auto.
  - intros H. apply bind_Done in H.
    destruct H as ([] & st1 & o1 & o2 & H1 & H2 & _).
    apply with_shell_same in H1; [|apply Hf].
    apply IH in H2; [|assumption].
    destruct H1 as (? & ? & ?), H2 as (? & ? & ?). repeat split; congruence.
Qed.

Lemma onMessage_process a k t msg sh sh' o :
  onMessage a k t msg sh = Done tt sh' o -> process sh' = process sh.
Proof.
  unfold onMessage. destruct (negb (String.eqb t (topicTtyIn a k))).
  - intros H. now injection H as <- _.
  - destruct msg as [raw|p]; [discriminate|].
    unfold bind, parse, get, put, ret. cbn [JSON_parse].
    destruct (Sequencer.receive (seqIn sh) (bufferIn sh) p) as [[n b] sunk].
    intros H. now injection H as <- _.
Qed.

Lemma onData_process a k chunk sh sh' o :
  onData a k chunk sh = Done tt sh' o -> process sh' = process sh.
Proof. intros H. now injection H as <- _. Qed.

Lemma step_grows a ev st st' out :
  (forall p, ev <> EvExit p) ->
  step a ev st = Done tt st' out -> grows st st'.
Proof.
  intros Hev. destruct ev as [| |t msg|t msg|p chunk|p]; cbn [step].
  - intros H. injection H as <- _. split; [left; auto|].
    intros t Ht. cbn [subscriptions]. now apply subscribed_incl, subscribed_incl.
  - intros H. injection H as <- _. apply grows_refl.
  - apply control_grows.
  - intros H. apply bind_Done in H.
    destruct H as (st0 & s0 & o0 & o1 & Hget & H & _).
    injection Hget as <- <- _.
    apply bind_Done in H. destruct H as ([] & st1 & o2 & o3 & Hc & Hf & _).
    apply control_grows in Hc.
    apply for_each_with_shell_same in Hf;
      [|intros k sh sh' o; apply onMessage_process].
    destruct Hf as (Hb & Hs & Hsub).
    apply (grows_same st st1 st'); auto. intros t' Ht'. now rewrite Hsub.
  - intros H. apply bind_Done in H.
    destruct H as (st0 & s0 & o0 & o1 & Hget & H & _).
    injection Hget as <- <- _.
    destruct (owner p (shells st)) as [k|].
    + apply with_shell_same in H; [|intros sh sh' o; apply onData_process].
      destruct H as (Hb & Hs & Hsub). split; [left; auto|].
      intros t Ht. now rewrite Hsub.
    + injection H as <- _. apply grows_refl.
  - now destruct (Hev p).
Qed.

Lemma onExit_cases a k st :
  onExit a k st =
  Done tt (exited a k st)
    [Unsubscribe (topicTtyIn a k);
     Publish (topicList a) (JArr (map key_json (map_keys (map_delete k (shells st))))) 1].
Proof. reflexivity. Qed.

Lemma step_wf a ev st st' out :
  wf st -> step a ev st = Done tt st' out -> wf st'.
Proof.
  intros Hwf H.
  assert (Hcases : (exists p, ev = EvExit p) \/ forall p, ev <> EvExit p).
  { destruct ev; try (right; discriminate). left. eauto. }
  destruct Hcases as [[p ->]|Hev].
  - cbn [step] in H. apply bind_Done in H.
    destruct H as (st0 & s0 & o0 & o1 & Hget & H & _).
    injection Hget as <- <- _.
    destruct (owner p (shells st)) as [k|].
    + rewrite onExit_cases in H. injection H as <- _.
      now apply (wf_deleted st _ k).
    + now injection H as <- _.
  - apply step_grows in H; [|assumption].
    destruct H as [[[Hb Hs]|(k & Hk & Hb & Hs)] _].
    + now apply (wf_same st).
    + now apply (wf_created st st' k).
Qed.

Lemma reachable_wf a st : reachable a st -> wf st.
Proof.
  induction 1 as [|st ev st' out _ IH Hstep]; [apply wf_initial|].
  now apply (step_wf a ev st st' out).
Qed.

(** In a well-formed registry the owner of a shell's process is its key. *)
Lemma owner_of_bound st k sh :
  wf st -> map_get k (shells st) = Some sh ->
  owner (process sh) (shells st) = Some k.
Proof.
  intros [_ Hpids _] Hget. apply map_get_In in Hget.
  unfold owner.
  destruct (find (fun e => Nat.eqb (process (snd e)) (process sh)) (shells st))
    as [[k' sh']|] eqn:Hfind.
  - apply find_some in Hfind. destruct Hfind as [Hin Heq].
    apply Nat.eqb_eq in Heq. cbn [snd] in Heq.
    f_equal.
    assert (Hinj : forall l (x y : key * shell),
               NoDup (map snd (bindings l)) -> In x l -> In y l ->
               process (snd x) = process (snd y) -> x = y).
    { clear. induction l as [|e l IH]; intros x y Hnd Hx Hy Hp; [destruct Hx|].
      cbn [bindings map snd] in Hnd. inversion Hnd as [|? ? Hnotin Hnd']; subst.
      assert (Hmem : forall z, In z l -> In (process (snd z)) (map snd (bindings l))).
      { intros z Hz. unfold bindings. rewrite map_map. cbn [snd].
        change (process (snd z)) with ((fun e => process (snd e)) z).
        now apply in_map. }
      destruct Hx as [->|Hx], Hy as [->|Hy]; auto.
      - exfalso. apply Hnotin. rewrite Hp. now apply Hmem.
      - exfalso. apply Hnotin. rewrite <- Hp. now apply Hmem. }
    assert (E : (k', sh') = (k, sh)) by (apply (Hinj (shells st)); auto).
    congruence.
  - exfalso. apply (find_none _ _ Hfind (k, sh)) in Hget.
    cbn [snd] in Hget. now rewrite Nat.eqb_refl in Hget.
Qed.

Lemma map_get_bindings k m :
  map_get k (bindings m) = option_map process (map_get k m).
Proof.
  induction m as [|[k' sh'] m IH]; simpl; [reflexivity|].
  destruct (key_eqb k' k); [reflexivity|assumption].
Qed.

Lemma map_get_app {V} k (v : V) m extra :
  map_get k m = Some v -> map_get k (m ++ extra) = Some v.
Proof.
  induction m as [|[k' v'] m IH]; simpl; [discriminate|].
  destruct (key_eqb k' k); auto.
Qed.

(** What [grows] means for one binding. *)
Lemma grows_keeps st st' k sh :
  grows st st' -> map_get k (shells st) = Some sh ->
  exists sh', map_get k (shells st') = Some sh' /\ process sh' = process sh.
Proof.
  intros [Hb _] Hget.
  assert (Hold : map_get k (bindings (shells st)) = Some (process sh))
    by (rewrite map_get_bindings, Hget; reflexivity).
  assert (Hnew : map_get k (bindings (shells st')) = Some (process sh)).
  { destruct Hb as [[Hb _]|(k' & _ & Hb & _)]; rewrite Hb; [assumption|].
    now apply map_get_app. }
  rewrite map_get_bindings in Hnew.
  destruct (map_get k (shells st')) as [sh'|]; [|discriminate].
  exists sh'. split; [reflexivity|]. simpl in Hnew. congruence.
Qed.

Lemma filter_key_absent k (m : list (key * shell)) :
  ~ In k (map_keys m) -> filter (fun e => key_eqb (fst e) k) m = [].
Proof.
  induction m as [|[k' v'] m IH]; simpl; intros H; [reflexivity|].
  destruct (key_eqb k' k) eqn:E.
  - apply key_eqb_eq in E. exfalso. apply H. now left.
  - apply IH. tauto.
Qed.

(** With keys that occur once, the entries under a key are the one found. *)
Lemma filter_key_unique k sh (m : list (key * shell)) :
  NoDup (map_keys m) -> map_get k m = Some sh ->
  filter (fun e => key_eqb (fst e) k) m = [(k, sh)].
Proof.
  induction m as [|[k' v'] m IH]; simpl; intros Hnd Hget; [discriminate|].
  inversion Hnd as [|? ? Hnotin Hnd']; subst.
  destruct (key_eqb k' k) eqn:E.
  - apply key_eqb_eq in E. subst. injection Hget as ->.
    now rewrite filter_key_absent.
  - now apply IH.
Qed.

(** C3 at the inputs that break it.  [JSON.parse] stands outside any [try]:
    on a body that is no JSON the exception leaves [ttyCreate], [ttyRemove]
    and both data listeners; nothing is logged, and with no handler above the
    listener the process ends.  The variables are as they were. *)
Theorem unparsable_message_is_uncaught (a : args) (raw : string) (st : state)
    (k : key) (sh : shell) (prefix : string) (c : Master.conn) :
  step a (EvControl (topicCreate a) (Unparsable raw)) st =
    Uncaught (SyntaxError raw) st []
  /\ step a (EvControl (topicRemove a) (Unparsable raw)) st =
    Uncaught (SyntaxError raw) st []
  /\ onMessage a k (topicTtyIn a k) (Unparsable raw) sh =
    Uncaught (SyntaxError raw) sh []
  /\ Master.onMessage prefix (Master.topicTtyOut prefix c) (Unparsable raw) c =
    Uncaught (SyntaxError raw) c [].
Proof.
  repeat split.
  - cbn [step]. unfold control. now rewrite String.eqb_refl.
  - cbn [step]. unfold control.
    now rewrite topicRemove_not_topicCreate, String.eqb_refl.
  - unfold onMessage. now rewrite String.eqb_refl.
  - unfold Master.onMessage. unfold bind at 1, get at 1.
    now rewrite String.eqb_refl.
Qed.

(** X1.  The part of C3 that the code does have: a control payload that is JSON
    but that the validator refuses is logged and dropped, and nothing
    changes. *)
Theorem invalid_params_are_dropped (a : args) (params : json) (st : state) :
  VALIDATOR_CREATE params = false ->
  step a (EvControl (topicCreate a) (Parsed params)) st =
    Done tt st [Log Error "invalid params"]
  /\ step a (EvControl (topicRemove a) (Parsed params)) st =
    Done tt st [Log Error "invalid params"].
Proof.
  intros Hv. split; cbn [step]; unfold control.
  - rewrite String.eqb_refl, ttyCreate_cases. now rewrite Hv.
  - rewrite topicRemove_not_topicCreate, String.eqb_refl, ttyRemove_cases.
    unfold VALIDATOR_REMOVE. now rewrite Hv.
Qed.

(** X5.  A create for an identifier that has no entry, with a payload the
    validator accepts: one process is spawned, the in topic of the session is
    subscribed to, the entry is added after the ones there, and then the list,
    with the new identifier last, is published with qos 1. *)
Theorem create_registers_and_lists (a : args) (st : state) (params : json) :
  VALIDATOR_CREATE params = true ->
  map_get (params_id params) (shells st) = None ->
  step a (EvControl (topicCreate a) (Parsed params)) st =
    Done tt
      {| shells :=
           shells st ++
           [(params_id params,
             {| process := spawned st; seqIn := 0; seqOut := 0; bufferIn := [] |})];
         subscriptions := subscribed (topicTtyIn a (params_id params)) (subscriptions st);
         spawned := S (spawned st) |}
      [Log Info "";
       Spawn (arg_shell a) (spawned st);
       Subscribe (topicTtyIn a (params_id params));
       Publish (topicList a)
         (JArr (map key_json (map_keys (shells st) ++ [params_id params]))) 1].
Proof.
  intros Hv Hget. cbn [step]. unfold control.
  rewrite String.eqb_refl, ttyCreate_cases, Hv. cbn [negb].
  unfold map_has. rewrite Hget. unfold created.
  rewrite (map_set_absent _ _ _ Hget). cbn [shells].
  unfold map_keys. now rewrite map_app.
Qed.

(** C6.  A create for an identifier that is in the registry only logs one
    warning: no process is spawned, no list is published, the state is the one
    before, and the registry has the one entry for the identifier, with the
    process it had. *)
Theorem create_existing_is_noop (a : args) (st : state) (params : json) (sh : shell) :
  reachable a st ->
  VALIDATOR_CREATE params = true ->
  map_get (params_id params) (shells st) = Some sh ->
  step a (EvControl (topicCreate a) (Parsed params)) st =
    Done tt st [Log Warn "shell already exists"]
  /\ filter (fun e => key_eqb (fst e) (params_id params)) (shells st) =
     [(params_id params, sh)].
Proof.
  intros Hreach Hv Hget. split.
  - cbn [step]. unfold control. rewrite String.eqb_refl, ttyCreate_cases, Hv.
    cbn [negb]. unfold map_has. now rewrite Hget.
  - apply filter_key_unique; [|assumption].
    rewrite <- bindings_keys. apply reachable_wf in Hreach. apply Hreach.
Qed.

(** C7.  A remove for an identifier that is in the registry logs and sends
    signal 9 to its process, and the state is the one before: entry,
    subscriptions and buffer are untouched.  The exit of that process is what
    unsubscribes [base/S/in], drops the entry with its buffer and counters and
    publishes the list; and no turn other than the exit of a process takes
    an entry, a binding or a subscription away. *)
Theorem remove_defers_cleanup_to_exit (a : args) (st : state) (params : json)
    (sh : shell) :
  reachable a st ->
  VALIDATOR_REMOVE params = true ->
  map_get (params_id params) (shells st) = Some sh ->
  step a (EvControl (topicRemove a) (Parsed params)) st =
    Done tt st [Log Info ""; Kill (process sh) 9]
  /\ step a (EvExit (process sh)) st =
     Done tt (exited a (params_id params) st)
       [Unsubscribe (topicTtyIn a (params_id params));
        Publish (topicList a)
          (JArr (map key_json (map_keys (map_delete (params_id params) (shells st))))) 1]
  /\ map_get (params_id params) (shells (exited a (params_id params) st)) = None
  /\ ~ In (topicTtyIn a (params_id params))
         (subscriptions (exited a (params_id params) st))
  /\ forall ev st' out,
       (forall p, ev <> EvExit p) ->
       step a ev st = Done tt st' out ->
       (exists sh', map_get (params_id params) (shells st') = Some sh'
                    /\ process sh' = process sh)
       /\ (forall t, In t (subscriptions st) -> In t (subscriptions st')).
Proof.
  intros Hreach Hv Hget. apply reachable_wf in Hreach.
  split; [|split; [|split; [|split]]].
  - cbn [step]. unfold control.
    rewrite topicRemove_not_topicCreate, String.eqb_refl, ttyRemove_cases, Hv.
    cbn [negb]. now rewrite Hget.
  - cbn [step]. unfold bind at 1, get at 1.
    rewrite (owner_of_bound st _ sh Hreach Hget), onExit_cases. reflexivity.
  - cbn [exited shells]. apply map_get_None. unfold map_delete, map_keys.
    intros Hin. apply in_map_iff in Hin. destruct Hin as (e & He & Hin).
    apply filter_In in Hin. destruct Hin as [_ Hin].
    rewrite <- He, key_eqb_refl in Hin. discriminate.
  - cbn [exited subscriptions]. intros Hin.
    apply filter_In in Hin. destruct Hin as [_ Hin].
    rewrite String.eqb_refl in Hin. discriminate.
  - intros ev st' out Hev Hstep. apply step_grows in Hstep; [|assumption].
    split; [now apply (grows_keeps st st')|apply Hstep].
Qed.

(** C8, as the code has it.  The ['connect'] listener calls [ttyList] first:
    the list, with the sessions the registry holds at that moment, is
    published with qos 1, then [base/create] is subscribed to, then
    [base/remove]; so no publication of the list comes after the two
    subscriptions. *)
Theorem connect_publishes_then_subscribes (a : args) (st : state) :
  step a EvConnect st =
  Done tt
    {| shells := shells st;
       subscriptions :=
         subscribed (topicRemove a) (subscribed (topicCreate a) (subscriptions st));
       spawned := spawned st |}
    [Publish (topicList a) (JArr (map key_json (map_keys (shells st)))) 1;
     Subscribe (topicCreate a);
     Subscribe (topicRemove a)]
  /\ ~ subscribes_before_publishing a
         [Publish (topicList a) (JArr (map key_json (map_keys (shells st)))) 1;
          Subscribe (topicCreate a);
          Subscribe (topicRemove a)].
Proof.
  split; [reflexivity|].
  intros (before & after & payload & qos & Hout & Hc & _).
  destruct before as [|e1 before]; [destruct Hc|].
  injection Hout as <- Hout.
  destruct Hc as [Hc|Hc]; [discriminate Hc|].
  destruct before as [|e2 before]; [destruct Hc|].
  injection Hout as <- Hout.
  destruct before as [|e3 before]; [discriminate Hout|].
  injection Hout as <- Hout.
  destruct before; discriminate Hout.
Qed.

(** The two control turns on a registered identifier. *)
Lemma control_turns_on_registered (a : args) (st : state) (params : json)
    (sh : shell) :
  VALIDATOR_CREATE params = true ->
  map_get (params_id params) (shells st) = Some sh ->
  step a (EvControl (topicRemove a) (Parsed params)) st =
    Done tt st [Log Info ""; Kill (process sh) 9]
  /\ step a (EvControl (topicCreate a) (Parsed params)) st =
    Done tt st [Log Warn "shell already exists"].
Proof.
  intros Hv Hget. split; cbn [step]; unfold control.
  - rewrite topicRemove_not_topicCreate, String.eqb_refl, ttyRemove_cases.
    unfold VALIDATOR_REMOVE. rewrite Hv. cbn [negb]. now rewrite Hget.
  - rewrite String.eqb_refl, ttyCreate_cases, Hv.
    cbn [negb]. unfold map_has. now rewrite Hget.
Qed.

(** C10.  In every state the program can reach, an identifier has one entry
    and so one process, and a process serves one identifier.  The entry stays
    until the exit of the process is seen, so a create that follows a remove
    of the same identifier before that exit finds it and is refused: one
    warning, no second process. *)
Theorem one_process_per_session (a : args) (st : state) :
  reachable a st ->
  (forall k sh1 sh2, In (k, sh1) (shells st) -> In (k, sh2) (shells st) -> sh1 = sh2)
  /\ (forall k1 k2 sh1 sh2,
        In (k1, sh1) (shells st) -> In (k2, sh2) (shells st) ->
        process sh1 = process sh2 -> k1 = k2)
  /\ (forall params sh,
        VALIDATOR_CREATE params = true ->
        map_get (params_id params) (shells st) = Some sh ->
        for_each
          [EvControl (topicRemove a) (Parsed params);
           EvControl (topicCreate a) (Parsed params)]
          (step a) st =
        Done tt st
          [Log Info ""; Kill (process sh) 9; Log Warn "shell already exists"]).
Proof.
  intros Hreach. pose proof (reachable_wf a st Hreach) as Hwf.
  assert (Hkeys : NoDup (map_keys (shells st)))
    by (rewrite <- bindings_keys; apply Hwf).
  split; [|split].
  - intros k sh1 sh2 H1 H2.
    apply (In_map_get _ _ _ Hkeys) in H1. apply (In_map_get _ _ _ Hkeys) in H2.
    congruence.
  - intros k1 k2 sh1 sh2 H1 H2 Hp.
    apply (In_map_get _ _ _ Hkeys) in H1. apply (In_map_get _ _ _ Hkeys) in H2.
    pose proof (owner_of_bound st k1 sh1 Hwf H1) as O1.
    pose proof (owner_of_bound st k2 sh2 Hwf H2) as O2.
    rewrite Hp in O1. congruence.
  - intros params sh Hv Hget. cbn [for_each]. unfold bind.
    destruct (control_turns_on_registered a st params sh Hv Hget) as [-> ->].
    reflexivity.
Qed.

End TargetFacts.

(** ** The connections of the master *)

Module MasterFacts.
Import Master.

Lemma count_app f out1 out2 : count f (out1 ++ out2) = (count f out1 + count f out2)%nat.
Proof. unfold count. now rewrite filter_app, length_app. Qed.

Lemma same_session_refl c : same_session c c.
Proof. now split. Qed.

Lemma same_session_trans c1 c2 c3 :
  same_session c1 c2 -> same_session c2 c3 -> same_session c1 c3.
Proof. intros [] []. split; congruence. Qed.

Lemma bind_assoc {S A B C} (c : M S A) (k : A -> M S B) (h : B -> M S C) s :
  bind (bind c k) h s = bind c (fun x => bind (k x) h) s.
Proof.
  unfold bind. destruct (c s) as [x s1 o1|e s1 o1]; [|reflexivity].
  destruct (k x s1) as [y s2 o2|e s2 o2]; [|reflexivity].
  destruct (h y s2); now rewrite app_assoc.
Qed.

Lemma for_each_app {S A} (f : A -> M S unit) l1 l2 : forall s,
  for_each (l1 ++ l2) f s = bind (for_each l1 f) (fun _ => for_each l2 f) s.
Proof.
  induction l1 as [|x l1 IH]; intros s; cbn [app for_each].
  - unfold bind, ret. now destruct (for_each l2 f s).
  - rewrite bind_assoc. unfold bind at 1 2.
    destruct (f x s) as [[] s1 o1|e s1 o1]; [|reflexivity].
    now rewrite IH.
Qed.

Lemma run_app prefix es1 es2 c :
  run prefix (es1 ++ es2) c = bind (run prefix es1) (fun _ => run prefix es2) c.
Proof. apply for_each_app. Qed.

Lemma run_Done_app prefix es1 es2 c c1 o1 c2 o2 :
  run prefix es1 c = Done tt c1 o1 ->
  run prefix es2 c1 = Done tt c2 o2 ->
  run prefix (es1 ++ es2) c = Done tt c2 (o1 ++ o2).
Proof. intros H1 H2. rewrite run_app. unfold bind. now rewrite H1, H2. Qed.

Lemma step_quiet prefix ev c :
  quiet ev = true ->
  exists c' out,
    step prefix ev c = Done tt c' out
    /\ same_session c c'
    /\ isAlive c' = isAlive c
    /\ count is_terminate out = 0%nat
    /\ count is_ping out = 0%nat
    /\ forall t id, count (is_remove t id) out = 0%nat.
Proof.
  destruct ev as [| |t [raw|p]|chunk| |]; try discriminate; intros _; cbn [step].
  - unfold bind at 1, get at 1.
    destruct (listening c); [|exists c, []; repeat split; reflexivity].
    unfold onMessage. unfold bind at 1, get at 1.
    destruct (negb (String.eqb t (topicTtyOut prefix c)));
      [exists c, []; repeat split; reflexivity|].
    unfold bind, parse, put, ret. cbn [JSON_parse].
    destruct (Sequencer.receive (seqOut c) (bufferOut c) p) as [[n b] sunk].
    eexists _, _. split; [reflexivity|]. cbn [app].
    split; [now split|]. split; [reflexivity|].
    assert (Hnone : forall f, (forall x, f (WsSend x) = false) ->
                      count f (map WsSend sunk) = 0%nat).
    { intros f Hf. unfold count. induction sunk as [|x sunk IH]; [reflexivity|].
      cbn [map filter]. now rewrite Hf. }
    repeat split; intros; apply Hnone; reflexivity.
  - eexists _, _. split; [reflexivity|]. split; [now split|].
    repeat split; reflexivity.
  - exists c, [Log Error ""]. repeat split; reflexivity.
Qed.

Lemma run_quiet prefix es : forall c,
  Forall (fun ev => quiet ev = true) es ->
  exists c' out,
    run prefix es c = Done tt c' out
    /\ same_session c c'
    /\ isAlive c' = isAlive c
    /\ count is_terminate out = 0%nat
    /\ count is_ping out = 0%nat
    /\ forall t id, count (is_remove t id) out = 0%nat.
Proof.
  induction es as [|ev es IH]; intros c Hq.
  - exists c, []. repeat split; reflexivity.
  - inversion Hq as [|? ? Hev Hes]; subst.
    destruct (step_quiet prefix ev c Hev) as (c1 & o1 & H1 & S1 & A1 & T1 & P1 & R1).
    destruct (IH c1 Hes) as (c2 & o2 & H2 & S2 & A2 & T2 & P2 & R2).
    exists c2, (o1 ++ o2). split.
    + change (ev :: es) with ([ev] ++ es).
      apply (run_Done_app prefix [ev] es c c1 o1 c2 o2); [|assumption].
      unfold run. cbn [for_each]. unfold bind, ret. rewrite H1.
      now rewrite app_nil_r.
    + split; [now apply (same_session_trans c c1 c2)|].
      split; [congruence|].
      repeat split; intros; rewrite count_app; rewrite ?T1, ?T2, ?P1, ?P2, ?R1, ?R2;
        reflexivity.
Qed.

(** Once [close] ran, the timer is cleared and [onMessage] is off: whatever
    comes after it, short of a second [close], terminates nothing and
    publishes no remove. *)
Lemma run_closed prefix later : forall c,
  heartbeat c = false -> listening c = false ->
  Forall (fun ev => ev <> EvClose) later ->
  exists c' out,
    run prefix later c = Done tt c' out
    /\ count is_terminate out = 0%nat
    /\ forall t id, count (is_remove t id) out = 0%nat.
Proof.
  induction later as [|ev later IH]; intros c Hh Hl Hne.
  - exists c, []. repeat split; reflexivity.
  - inversion Hne as [|? ? Hev Hlater]; subst.
    assert (H1 : exists c1 o1,
               step prefix ev c = Done tt c1 o1
               /\ heartbeat c1 = false /\ listening c1 = false
               /\ count is_terminate o1 = 0%nat
               /\ forall t id, count (is_remove t id) o1 = 0%nat).
    { destruct ev as [| |t msg|chunk| |]; cbn [step].
      - eexists _, _. split; [reflexivity|]. repeat split; assumption.
      - unfold bind, get. rewrite Hh. exists c, []. repeat split; assumption.
      - unfold bind, get. rewrite Hl. exists c, []. repeat split; assumption.
      - eexists _, _. split; [reflexivity|]. repeat split; assumption.
      - exists c, [Log Error ""]. repeat split; assumption.
      - now destruct Hev. }
    destruct H1 as (c1 & o1 & H1 & Hh1 & Hl1 & T1 & R1).
    destruct (IH c1 Hh1 Hl1 Hlater) as (c2 & o2 & H2 & T2 & R2).
    exists c2, (o1 ++ o2). split.
    + change (ev :: later) with ([ev] ++ later).
      apply (run_Done_app prefix [ev] later c c1 o1 c2 o2); [|assumption].
      unfold run. cbn [for_each]. unfold bind, ret. rewrite H1.
      now rewrite app_nil_r.
    + repeat split; intros; rewrite count_app; rewrite ?T1, ?T2, ?R1, ?R2; reflexivity.
Qed.

Lemma run_one prefix ev c c' o :
  step prefix ev c = Done tt c' o -> run prefix [ev] c = Done tt c' o.
Proof.
  intros H. unfold run. cbn [for_each]. unfold bind, ret. rewrite H.
  now rewrite app_nil_r.
Qed.

(** The callback of the timer, path by path. *)
Lemma step_tick prefix c :
  step prefix EvTick c =
  if heartbeat c
  then if isAlive c
       then Done tt
              {| targetId := targetId c; ttyId := ttyId c; isAlive := false;
                 heartbeat := heartbeat c; seqIn := seqIn c; seqOut := seqOut c;
                 bufferOut := bufferOut c; listening := listening c |} [WsPing]
       else Done tt c [WsTerminate]
  else Done tt c [].
Proof.
  destruct c as [t i alive timer si so bo l].
  cbn [step heartbeat isAlive]. unfold beat, bind, get.
  destruct timer, alive; reflexivity.
Qed.

(** The variables a connection starts with. *)
Lemma connection_accepts prefix target fresh c out :
  connection prefix target fresh = (Some c, out) ->
  isAlive c = true /\ heartbeat c = true /\ listening c = true
  /\ ttyId c = fresh /\ targetId c = target_text target
  /\ VALIDATOR_TARGET target = true.
Proof.
  unfold connection. destruct (VALIDATOR_TARGET target); cbn [negb]; [|discriminate].
  intros H. injection H as <- _. repeat split.
Qed.

Lemma topicRemove_same prefix c c' :
  same_session c c' -> topicRemove prefix c' = topicRemove prefix c.
Proof.
  intros [Ht _ _ _]. unfold topicRemove, topic. now rewrite Ht.
Qed.

(** C4.  A connection whose client sends no pong, whatever else happens on it
    in between: the first tick of the timer pings and terminates nothing, the
    second tick calls [terminate], which is two intervals, 60 seconds, after
    the timer was set; when the socket then emits [close], [{id: ttyId}] is
    published on [base/remove] with qos 1, and nothing that follows adds a
    second [terminate] or a second remove. *)
Theorem unanswered_heartbeat_terminates (prefix : string) (target : option string)
    (fresh : string) (c : conn) (out0 : list effect) (es1 es2 later : list event) :
  connection prefix target fresh = (Some c, out0) ->
  Forall (fun ev => quiet ev = true) es1 ->
  Forall (fun ev => quiet ev = true) es2 ->
  Forall (fun ev => ev <> EvClose) later ->
  tick_time 2 = 60000
  /\ exists c1 out1,
       run prefix (es1 ++ [EvTick] ++ es2) c = Done tt c1 out1
       /\ count is_terminate out1 = 0%nat
       /\ count is_ping out1 = 1%nat
       /\ (exists c2,
             run prefix ((es1 ++ [EvTick] ++ es2) ++ [EvTick]) c =
             Done tt c2 (out1 ++ [WsTerminate]))
       /\ exists c3 out3,
            run prefix ((es1 ++ [EvTick] ++ es2) ++ [EvTick; EvClose] ++ later) c =
            Done tt c3 out3
            /\ count is_terminate out3 = 1%nat
            /\ count (is_remove (topicRemove prefix c) fresh) out3 = 1%nat.
Proof.
  intros Hconn Hq1 Hq2 Hlater. split; [reflexivity|].
  destruct (connection_accepts _ _ _ _ _ Hconn) as (Ha & Hh & _ & Hid & _).
  destruct (run_quiet prefix es1 c Hq1) as (ca & oa & Ra & Sa & Aa & Ta & Pa & Ma).
  (* first tick *)
  assert (Rb : step prefix EvTick ca = Done tt
                 {| targetId := targetId ca; ttyId := ttyId ca; isAlive := false;
                    heartbeat := heartbeat ca; seqIn := seqIn ca; seqOut := seqOut ca;
                    bufferOut := bufferOut ca; listening := listening ca |} [WsPing]).
  { rewrite step_tick, Aa, Ha.
    destruct (heartbeat ca) eqn:E; [reflexivity|].
    rewrite (same_heartbeat _ _ Sa), Hh in E. discriminate. }
  set (cb := {| targetId := targetId ca; ttyId := ttyId ca; isAlive := false;
                heartbeat := heartbeat ca; seqIn := seqIn ca; seqOut := seqOut ca;
                bufferOut := bufferOut ca; listening := listening ca |}) in *.
  assert (Sb : same_session c cb).
  { apply (same_session_trans c ca cb); [assumption|now split]. }
  destruct (run_quiet prefix es2 cb Hq2) as (cc & oc & Rc & Sc & Ac & Tc & Pc & Mc).
  assert (Scc : same_session c cc) by now apply (same_session_trans c cb cc).
  assert (R1 : run prefix (es1 ++ [EvTick] ++ es2) c = Done tt cc (oa ++ [WsPing] ++ oc)).
  { apply (run_Done_app _ _ _ _ ca oa); [assumption|].
    apply (run_Done_app _ _ _ _ cb [WsPing]); [now apply run_one|assumption]. }
  (* second tick *)
  assert (Rd : step prefix EvTick cc = Done tt cc [WsTerminate]).
  { rewrite step_tick, Ac. cbn [isAlive cb].
    destruct (heartbeat cc) eqn:E; [reflexivity|].
    rewrite (same_heartbeat _ _ Scc), Hh in E. discriminate. }
  exists cc, (oa ++ [WsPing] ++ oc).
  split; [exact R1|].
  split; [rewrite !count_app, Ta, Tc; reflexivity|].
  split; [rewrite !count_app, Pa, Pc; reflexivity|].
  split.
  { exists cc. apply (run_Done_app _ _ _ _ cc (oa ++ [WsPing] ++ oc)); [exact R1|].
    now apply run_one. }
  (* close *)
  set (ce := {| targetId := targetId cc; ttyId := ttyId cc; isAlive := isAlive cc;
                heartbeat := false; seqIn := seqIn cc; seqOut := seqOut cc;
                bufferOut := bufferOut cc; listening := false |}).
  assert (Re : step prefix EvClose cc = Done tt ce
                 [Log Info "disconnected"; ClearInterval;
                  Unsubscribe (topicTtyOut prefix cc);
                  Publish (topicRemove prefix cc) (JObj [("id", JStr (ttyId cc))]) 1])
    by reflexivity.
  destruct (run_closed prefix later ce eq_refl eq_refl Hlater) as (cf & og & Rf & Tf & Mf).
  eexists cf, _. split.
  { apply (run_Done_app _ _ _ _ cc (oa ++ [WsPing] ++ oc)); [exact R1|].
    change ([EvTick; EvClose] ++ later) with ([EvTick] ++ [EvClose] ++ later).
    apply (run_Done_app _ _ _ _ cc [WsTerminate]); [now apply run_one|].
    apply (run_Done_app _ _ _ _ ce); [apply run_one; exact Re|exact Rf]. }
  split.
  - rewrite !count_app, Ta, Tc, Tf. reflexivity.
  - rewrite !count_app, Ma, Mc, Mf.
    rewrite (topicRemove_same prefix c cc Scc), (same_ttyId _ _ Scc), Hid.
    unfold count. cbn [filter is_remove].
    rewrite !String.eqb_refl. reflexivity.
Qed.

(** X2.  The rejection the ['connection'] listener does have: without a [target]
    parameter, or with one in which [PATTERN_UUID] matches nowhere, it logs,
    closes the socket and returns; [uuid.v4] is not called, nothing is
    published or subscribed to, and no connection variables exist. *)
Theorem unmatched_target_is_rejected (prefix : string) (target : option string)
    (fresh : string) :
  target = None \/ (exists s, target = Some s /\ Pattern.test s = false) ->
  connection prefix target fresh = (None, [Log Error "invalid target id"; WsClose]).
Proof.
  intros [->|(s & -> & Hs)]; unfold connection; cbn [VALIDATOR_TARGET];
    rewrite ?Hs; reflexivity.
Qed.

End MasterFacts.

(** ** The properties at a concrete run *)

(** [Demo.one_session] is what a create for [Demo.session] leaves. *)
Lemma one_session_reachable : Target.reachable Demo.target_args Demo.one_session.
Proof.
  apply (Target.reach_step Demo.target_args Target.initial
           (Target.EvControl (Target.topicCreate Demo.target_args)
              (Parsed Demo.session_params))
           Demo.one_session
           [Log Info ""; Spawn "bash" 0%nat;
            Subscribe (Target.topicTtyIn Demo.target_args (Some Demo.session));
            Publish (Target.topicList Demo.target_args) (JArr [JStr Demo.session]) 1]).
  - apply Target.reach_initial.
  - reflexivity.
Qed.

Lemma invalid_params_are_dropped_witness :
  VALIDATOR_CREATE (JObj [("id", JStr "bash")]) = false
  /\ Target.step Demo.target_args
       (Target.EvControl (Target.topicCreate Demo.target_args)
          (Parsed (JObj [("id", JStr "bash")]))) Demo.one_session =
     Done tt Demo.one_session [Log Error "invalid params"].
Proof.
  split; [reflexivity|].
  exact (proj1 (TargetFacts.invalid_params_are_dropped Demo.target_args
                  (JObj [("id", JStr "bash")]) Demo.one_session eq_refl)).
Defined.

Lemma create_existing_is_noop_witness :
  Target.reachable Demo.target_args Demo.one_session
  /\ VALIDATOR_CREATE Demo.session_params = true
  /\ Target.step Demo.target_args
       (Target.EvControl (Target.topicCreate Demo.target_args)
          (Parsed Demo.session_params)) Demo.one_session =
     Done tt Demo.one_session [Log Warn "shell already exists"].
Proof.
  split; [exact one_session_reachable|]. split; [reflexivity|].
  exact (proj1 (TargetFacts.create_existing_is_noop Demo.target_args
                  Demo.one_session Demo.session_params Demo.fresh_shell
                  one_session_reachable eq_refl eq_refl)).
Defined.

Lemma remove_defers_cleanup_to_exit_witness :
  Target.reachable Demo.target_args Demo.one_session
  /\ VALIDATOR_REMOVE Demo.session_params = true
  /\ Target.step Demo.target_args
       (Target.EvControl (Target.topicRemove Demo.target_args)
          (Parsed Demo.session_params)) Demo.one_session =
     Done tt Demo.one_session [Log Info ""; Kill 0%nat 9].
Proof.
  split; [exact one_session_reachable|]. split; [reflexivity|].
  exact (proj1 (TargetFacts.remove_defers_cleanup_to_exit Demo.target_args
                  Demo.one_session Demo.session_params Demo.fresh_shell
                  one_session_reachable eq_refl eq_refl)).
Defined.

(** C8 as the specification words it fails: on the first connection the list
    is the first call made, before either subscription. *)
Lemma connect_order_counterexample :
  Target.step Demo.target_args Target.EvConnect Target.initial =
    Done tt
      {| Target.shells := [];
         Target.subscriptions :=
           ["shell/11111111-1111-1111-1111-111111111111/create";
            "shell/11111111-1111-1111-1111-111111111111/remove"];
         Target.spawned := 0 |}
      [Publish "shell/11111111-1111-1111-1111-111111111111/list" (JArr []) 1;
       Subscribe "shell/11111111-1111-1111-1111-111111111111/create";
       Subscribe "shell/11111111-1111-1111-1111-111111111111/remove"]
  /\ ~ Target.subscribes_before_publishing Demo.target_args
         [Publish "shell/11111111-1111-1111-1111-111111111111/list" (JArr []) 1;
          Subscribe "shell/11111111-1111-1111-1111-111111111111/create";
          Subscribe "shell/11111111-1111-1111-1111-111111111111/remove"].
Proof.
  split; [reflexivity|].
  intros (before & after & payload & qos & Hout & Hc & _).
  destruct before as [|e1 before]; [destruct Hc|].
  injection Hout as <- Hout.
  destruct Hc as [Hc|Hc]; [discriminate Hc|].
  destruct before as [|e2 before]; [destruct Hc|].
  injection Hout as <- Hout.
  destruct before as [|e3 before]; [discriminate Hout|].
  injection Hout as <- Hout.
  destruct before; discriminate Hout.
Qed.

Lemma one_process_per_session_witness :
  Target.reachable Demo.target_args Demo.one_session
  /\ for_each
       [Target.EvControl (Target.topicRemove Demo.target_args) (Parsed Demo.session_params);
        Target.EvControl (Target.topicCreate Demo.target_args) (Parsed Demo.session_params)]
       (Target.step Demo.target_args) Demo.one_session =
     Done tt Demo.one_session
       [Log Info ""; Kill 0%nat 9; Log Warn "shell already exists"].
Proof.
  split; [exact one_session_reachable|].
  exact (proj2 (proj2 (TargetFacts.one_process_per_session Demo.target_args
                         Demo.one_session one_session_reachable))
           Demo.session_params Demo.fresh_shell eq_refl eq_refl).
Defined.

Lemma unanswered_heartbeat_terminates_witness :
  Master.connection "shell/" (Some "11111111-1111-1111-1111-111111111111") Demo.session =
    (Some Demo.fresh_conn,
     [UuidV4 Demo.session; Log Info "connected";
      Publish "shell/11111111-1111-1111-1111-111111111111/create"
        (JObj [("id", JStr Demo.session)]) 1;
      SetInterval 30000;
      Subscribe
        "shell/11111111-1111-1111-1111-111111111111/22222222-2222-2222-2222-222222222222/out"])
  /\ exists c3 out3,
       Master.run "shell/"
         [Master.EvWsMessage "ls"; Master.EvTick; Master.EvTick; Master.EvClose;
          Master.EvTick] Demo.fresh_conn = Done tt c3 out3
       /\ Master.count Master.is_terminate out3 = 1%nat
       /\ Master.count
            (Master.is_remove "shell/11111111-1111-1111-1111-111111111111/remove"
               Demo.session) out3 = 1%nat.
Proof.
  split; [reflexivity|].
  assert (Hq1 : Forall (fun ev => Master.quiet ev = true) [Master.EvWsMessage "ls"])
    by (repeat constructor).
  assert (Hq2 : Forall (fun ev => Master.quiet ev = true) [])
    by constructor.
  assert (Hl : Forall (fun ev => ev <> Master.EvClose) [Master.EvTick])
    by (repeat constructor; discriminate).
  destruct (MasterFacts.unanswered_heartbeat_terminates "shell/"
              (Some "11111111-1111-1111-1111-111111111111") Demo.session
              Demo.fresh_conn _
              [Master.EvWsMessage "ls"] [] [Master.EvTick]
              eq_refl Hq1 Hq2 Hl)
    as (_ & c1 & out1 & _ & _ & _ & _ & c3 & out3 & Hrun & Hterm & Hrem).
  exists c3, out3. repeat split; assumption.
Defined.

(** The run of the witness, call by call. *)
Example unanswered_heartbeat_trace :
  Master.run "shell/"
    [Master.EvWsMessage "ls"; Master.EvTick; Master.EvTick; Master.EvClose;
     Master.EvTick] Demo.fresh_conn =
  Done tt
    {| Master.targetId := "11111111-1111-1111-1111-111111111111";
       Master.ttyId := Demo.session;
       Master.isAlive := false; Master.heartbeat := false;
       Master.seqIn := 1; Master.seqOut := 0;
       Master.bufferOut := []; Master.listening := false |}
    [Publish
       "shell/11111111-1111-1111-1111-111111111111/22222222-2222-2222-2222-222222222222/in"
       (JObj [("seq", JNum 0); ("data", JStr "ls")]) 0;
     WsPing;
     WsTerminate;
     Log Info "disconnected";
     ClearInterval;
     Unsubscribe
       "shell/11111111-1111-1111-1111-111111111111/22222222-2222-2222-2222-222222222222/out";
     Publish "shell/11111111-1111-1111-1111-111111111111/remove"
       (JObj [("id", JStr Demo.session)]) 1].
Proof. reflexivity. Qed.

(** C5 at an input that breaks it: a [target] parameter that is no UUID but
    contains one passes [VALIDATOR_TARGET]; an identifier is drawn, the create
    message is published under the parameter as it came, and the out topic is
    subscribed to. *)
Theorem padded_target_is_accepted :
  Pattern.is_uuid Demo.padded_target = false
  /\ Master.connection "shell/" (Some Demo.padded_target) Demo.session =
     (Some
        {| Master.targetId := Demo.padded_target;
           Master.ttyId := Demo.session;
           Master.isAlive := true; Master.heartbeat := true;
           Master.seqIn := 0; Master.seqOut := 0;
           Master.bufferOut := []; Master.listening := true |},
      [UuidV4 Demo.session;
       Log Info "connected";
       Publish "shell/x11111111-1111-1111-1111-111111111111/y/create"
         (JObj [("id", JStr Demo.session)]) 1;
       SetInterval 30000;
       Subscribe
         "shell/x11111111-1111-1111-1111-111111111111/y/22222222-2222-2222-2222-222222222222/out"]).
Proof. split; reflexivity. Qed.

Lemma unmatched_target_is_rejected_witness :
  Pattern.test "bash" = false
  /\ Master.connection "shell/" (Some "bash") Demo.session =
     (None, [Log Error "invalid target id"; WsClose])
  /\ Master.connection "shell/" None Demo.session =
     (None, [Log Error "invalid target id"; WsClose]).
Proof.
  split; [reflexivity|]. split.
  - apply MasterFacts.unmatched_target_is_rejected.
    right. exists "bash". split; reflexivity.
  - apply MasterFacts.unmatched_target_is_rejected. now left.
Defined.

Lemma create_registers_and_lists_witness :
  VALIDATOR_CREATE Demo.session_params = true
  /\ Target.step Demo.target_args
       (Target.EvControl (Target.topicCreate Demo.target_args)
          (Parsed Demo.session_params)) Target.initial =
     Done tt Demo.one_session
       [Log Info ""; Spawn "bash" 0%nat;
        Subscribe
          "shell/11111111-1111-1111-1111-111111111111/22222222-2222-2222-2222-222222222222/in";
        Publish "shell/11111111-1111-1111-1111-111111111111/list"
          (JArr [JStr Demo.session]) 1].
Proof.
  split; [reflexivity|].
  exact (TargetFacts.create_registers_and_lists Demo.target_args Target.initial
           Demo.session_params eq_refl eq_refl).
Defined.

(** * Further properties *)

(** ** The reorder buffer on arbitrary input *)

Module BufferFacts.
Import Sequencer SequencerFacts.

(** The while loop, whatever the buffer holds: it takes a run of packets with
    consecutive [seq] off the front and moves the counter past it. *)
Lemma drain_any buffer : forall next,
  exists sp,
    let '(n, b, sunk) := drain next buffer in
    buffer = sp ++ b
    /\ sunk = map data sp
    /\ map seq sp = consecutive next (List.length sp)
    /\ n = next + Z.of_nat (List.length sp).
Proof.
  induction buffer as [|p rest IH]; intros next; cbn [drain].
  - exists []. cbn. repeat split. lia.
  - destruct (Z.eqb_spec (seq p) next) as [E|NE].
    + destruct (IH (next + 1)) as [sp Hsp].
      destruct (drain (next + 1) rest) as [[n b] sunk].
      destruct Hsp as (-> & -> & Hseq & ->).
      exists (p :: sp). cbn [app map List.length consecutive].
      rewrite Hseq, E. repeat split. lia.
    + exists []. cbn. repeat split. lia.
Qed.

Lemma receive_any next buffer p :
  exists sp,
    let '(n, b, sunk) := receive next buffer p in
    Permutation (sp ++ b) (buffer ++ [p])
    /\ sunk = map data sp
    /\ map seq sp = consecutive next (List.length sp)
    /\ n = next + Z.of_nat (List.length sp).
Proof.
  unfold receive.
  destruct (drain_any (sort (buffer ++ [p])) next) as [sp Hsp].
  exists sp. destruct (drain next (sort (buffer ++ [p]))) as [[n b] sunk].
  destruct Hsp as (Hsplit & Hs & Hseq & Hn).
  repeat split; auto. rewrite <- Hsplit. symmetry. apply sort_perm.
Qed.

Lemma run_any l : forall next buffer,
  exists sp,
    let '(n, b, sunk) := run next buffer l in
    Permutation (sp ++ b) (buffer ++ l)
    /\ sunk = map data sp
    /\ map seq sp = consecutive next (List.length sp)
    /\ n = next + Z.of_nat (List.length sp).
Proof.
  induction l as [|p rest IH]; intros next buffer; cbn [run].
  - exists []. cbn. rewrite app_nil_r. repeat split; auto. lia.
  - destruct (receive_any next buffer p) as [sp1 H1].
    destruct (receive next buffer p) as [[n1 b1] sunk1].
    destruct H1 as (HP1 & -> & Hseq1 & ->).
    destruct (IH (next + Z.of_nat (List.length sp1)) b1) as [sp2 H2].
    destruct (run (next + Z.of_nat (List.length sp1)) b1 rest) as [[n2 b2] sunk2].
    destruct H2 as (HP2 & -> & Hseq2 & ->).
    exists (sp1 ++ sp2). repeat split.
    + rewrite <- app_assoc, HP2.
      rewrite app_assoc, HP1, <- app_assoc. reflexivity.
    + now rewrite map_app.
    + now rewrite map_app, length_app, consecutive_app, Hseq1, Hseq2.
    + rewrite length_app. lia.
Qed.

(** The least [seq] that did not arrive is where a fresh listener stops. *)
Lemma run_stops_at_first_gap l :
  Forall (fun p => 0 <= seq p) l ->
  NoDup (map seq l) ->
  exists sp,
    let '(n, b, sunk) := run 0 [] l in
    sunk = map data sp
    /\ n = Z.of_nat (List.length sp)
    /\ map seq sp = consecutive 0 (List.length sp)
    /\ Permutation (sp ++ b) l
    /\ StronglySorted seq_lt b
    /\ Forall (fun q => n < seq q) b
    /\ ~ In n (map seq l).
Proof.
  intros Hpos Hnd.
  destruct (run_inv l [] [] 0 [] Inv_init Hpos Hnd) as [sp H]; [intros p _ []|].
  exists sp. destruct (run 0 [] l) as [[n b] sunk].
  destruct H as [-> [_ Hsunk Hnext Hperm Hsorted Hfuture]].
  rewrite app_nil_r in Hperm. cbn [app] in *.
  repeat split; auto.
  intros Hin.
  assert (Hin' : In n (map seq (sp ++ b))).
  { eapply Permutation_in; [symmetry; apply Permutation_map; exact Hperm|exact Hin]. }
  rewrite map_app, in_app_iff, Hsunk, consecutive_In in Hin'.
  destruct Hin' as [Hin'|Hin']; [lia|].
  rewrite in_map_iff in Hin'. destruct Hin' as (q & Hq & Hqb).
  rewrite Forall_forall in Hfuture. specialize (Hfuture q Hqb). cbn beta in Hfuture. lia.
Qed.

End BufferFacts.

Section Delivery.

Variable a : Target.args.
Variable prefix : string.

(** X6.  Whatever packets arrive, in whatever order, with repeats or with
    [seq] below the counter, and whatever the buffer held before: what a
    listener hands to its sink is the data of packets whose [seq] are the
    counter, the counter plus one, and so on without a gap, the counter ends
    just past them, and the packets handed over together with those still
    buffered are the packets buffered before together with those that arrived,
    each as often as it came.  This holds for [shell.onMessage] and for
    [onMessage] of a connection. *)
Theorem delivery_is_consecutive_and_lossless (k : Target.key) (sh : Target.shell)
    (c : Master.conn) (l : list packet) :
  Master.listening c = true ->
  (exists sp b,
     for_each l (fun q => Target.onMessage a k (Target.topicTtyIn a k) (Parsed q)) sh =
     Done tt
       {| Target.process := Target.process sh;
          Target.seqIn := Target.seqIn sh + Z.of_nat (List.length sp);
          Target.seqOut := Target.seqOut sh; Target.bufferIn := b |}
       (map (PtyWrite (Target.process sh)) (map data sp))
     /\ map seq sp = Sequencer.consecutive (Target.seqIn sh) (List.length sp)
     /\ Permutation (sp ++ b) (Target.bufferIn sh ++ l))
  /\
  (exists sp b,
     Master.run prefix
       (map (fun q => Master.EvMessage (Master.topicTtyOut prefix c) (Parsed q)) l) c =
     Done tt
       {| Master.targetId := Master.targetId c; Master.ttyId := Master.ttyId c;
          Master.isAlive := Master.isAlive c; Master.heartbeat := Master.heartbeat c;
          Master.seqIn := Master.seqIn c;
          Master.seqOut := Master.seqOut c + Z.of_nat (List.length sp);
          Master.bufferOut := b; Master.listening := true |}
       (map WsSend (map data sp))
     /\ map seq sp = Sequencer.consecutive (Master.seqOut c) (List.length sp)
     /\ Permutation (sp ++ b) (Master.bufferOut c ++ l)).
Proof.
  intros Hl. split.
  - rewrite target_listener_run.
    destruct (BufferFacts.run_any l (Target.seqIn sh) (Target.bufferIn sh)) as [sp H].
    destruct (Sequencer.run (Target.seqIn sh) (Target.bufferIn sh) l) as [[n b] sunk].
    destruct H as (HP & -> & Hseq & ->). now exists sp, b.
  - rewrite (master_listener_run prefix l c _ Hl eq_refl), Hl.
    destruct (BufferFacts.run_any l (Master.seqOut c) (Master.bufferOut c)) as [sp H].
    destruct (Sequencer.run (Master.seqOut c) (Master.bufferOut c) l) as [[n b] sunk].
    destruct H as (HP & -> & Hseq & ->). now exists sp, b.
Qed.

(** X7.  From a fresh session, with packets that all differ in [seq] and have
    none below 0: the sink gets the data of [seq] 0, 1, ... up to, and not
    including, the least [seq] that did not arrive, which is where the counter
    stops; every other packet that arrived waits in the buffer, in ascending
    order of [seq]. *)
Theorem delivery_stops_at_first_gap (k : Target.key) (p : pid) (l : list packet) :
  Forall (fun q => 0 <= seq q) l ->
  NoDup (map seq l) ->
  exists sp b,
    for_each l (fun q => Target.onMessage a k (Target.topicTtyIn a k) (Parsed q))
      {| Target.process := p; Target.seqIn := 0; Target.seqOut := 0;
         Target.bufferIn := [] |} =
    Done tt
      {| Target.process := p; Target.seqIn := Z.of_nat (List.length sp);
         Target.seqOut := 0; Target.bufferIn := b |}
      (map (PtyWrite p) (map data sp))
    /\ map seq sp = Sequencer.consecutive 0 (List.length sp)
    /\ ~ In (Z.of_nat (List.length sp)) (map seq l)
    /\ Permutation (sp ++ b) l
    /\ StronglySorted Sequencer.seq_lt b.
Proof.
  intros Hpos Hnd. rewrite target_listener_run.
  cbn [Target.seqIn Target.bufferIn Target.process Target.seqOut].
  destruct (BufferFacts.run_stops_at_first_gap l Hpos Hnd) as [sp H].
  destruct (Sequencer.run 0 [] l) as [[n b] sunk].
  destruct H as (-> & -> & Hseq & HP & Hsorted & _ & Hgap).
  now exists sp, b.
Qed.

End Delivery.

Lemma delivery_is_consecutive_and_lossless_witness :
  exists sp b,
    Demo.to_shell [Demo.p1; Demo.p0; Demo.p0; Demo.p2] Demo.fresh_shell =
    Done tt
      {| Target.process := 0%nat; Target.seqIn := 0 + Z.of_nat (List.length sp);
         Target.seqOut := 0; Target.bufferIn := b |}
      (map (PtyWrite 0%nat) (map data sp))
    /\ map seq sp = Sequencer.consecutive 0 (List.length sp)
    /\ Permutation (sp ++ b) ([] ++ [Demo.p1; Demo.p0; Demo.p0; Demo.p2]).
Proof.
  exact (proj1 (delivery_is_consecutive_and_lossless Demo.target_args "shell/"
                  (Some Demo.session) Demo.fresh_shell Demo.fresh_conn
                  [Demo.p1; Demo.p0; Demo.p0; Demo.p2] eq_refl)).
Defined.

Lemma delivery_stops_at_first_gap_witness :
  NoDup (map seq [Demo.p2; Demo.p0])
  /\ exists sp b,
       Demo.to_shell [Demo.p2; Demo.p0] Demo.fresh_shell =
       Done tt
         {| Target.process := 0%nat; Target.seqIn := Z.of_nat (List.length sp);
            Target.seqOut := 0; Target.bufferIn := b |}
         (map (PtyWrite 0%nat) (map data sp))
       /\ map seq sp = Sequencer.consecutive 0 (List.length sp)
       /\ ~ In (Z.of_nat (List.length sp)) (map seq [Demo.p2; Demo.p0])
       /\ Permutation (sp ++ b) [Demo.p2; Demo.p0]
       /\ StronglySorted Sequencer.seq_lt b.
Proof.
  assert (Hnd : NoDup (map seq [Demo.p2; Demo.p0])).
  { repeat constructor; cbn; intros H; repeat destruct H as [H|H]; try discriminate H; exact H. }
  assert (Hpos : Forall (fun q => 0 <= seq q) [Demo.p2; Demo.p0]).
  { repeat constructor; cbn; discriminate. }
  split; [exact Hnd|].
  exact (delivery_stops_at_first_gap Demo.target_args (Some Demo.session) 0%nat
           [Demo.p2; Demo.p0] Hpos Hnd).
Defined.

(** ** What the pattern of the validators accepts *)

Module PatternFacts.
Import Pattern TopicFacts.

(** A matcher that consumes a piece off the front and is blind to what
    follows it. *)
Definition consumes (m : string -> option string) : Prop :=
  forall s r,
    m s = Some r <-> exists h, s = (h ++ r)%string /\ m h = Some EmptyString.

Lemma hexes_consumes k : consumes (hexes k).
Proof.
  induction k as [|k IH]; intros s r; cbn [hexes].
  - split.
    + intros H. injection H as ->. now exists EmptyString.
    + intros (h & -> & H). injection H as ->. reflexivity.
  - split.
    + destruct s as [|c s]; [discriminate|].
      destruct (is_hex c) eqn:Hc; [|discriminate].
      intros H. apply IH in H. destruct H as (h & -> & Hh).
      exists (String c h). cbn [append hexes]. now rewrite Hc.
    + intros (h & -> & H). destruct h as [|c h]; [discriminate|].
      cbn [append]. destruct (is_hex c); [|discriminate].
      apply IH. now exists h.
Qed.

Lemma group_consumes k : consumes (group k).
Proof.
  intros s r. unfold group. split.
  - destruct s as [|c s]; [discriminate|].
    destruct (Ascii.eqb c "-") eqn:Hc; [|discriminate].
    intros H. apply hexes_consumes in H. destruct H as (h & -> & Hh).
    exists (String c h). cbn [append]. now rewrite Hc.
  - intros (h & -> & H). destruct h as [|c h]; [discriminate|].
    cbn [append]. destruct (Ascii.eqb c "-"); [|discriminate].
    apply hexes_consumes. now exists h.
Qed.

Lemma and_then_consumes m1 m2 :
  consumes m1 -> consumes m2 -> consumes (fun s => and_then (m1 s) m2).
Proof.
  intros H1 H2 s r. unfold and_then. split.
  - destruct (m1 s) as [s1|] eqn:E1; [|discriminate].
    intros E2. apply H1 in E1. apply H2 in E2.
    destruct E1 as (h1 & -> & Hh1), E2 as (h2 & -> & Hh2).
    exists (h1 ++ h2)%string. split; [now rewrite append_assoc|].
    assert (E : m1 (h1 ++ h2)%string = Some h2) by (apply H1; now exists h1).
    now rewrite E.
  - intros (h & -> & H).
    destruct (m1 h) as [x|] eqn:E1; [|discriminate].
    apply H1 in E1. destruct E1 as (h1 & -> & Hh1).
    assert (E : m1 ((h1 ++ x) ++ r)%string = Some (x ++ r)%string).
    { apply H1. exists h1. split; [apply append_assoc|assumption]. }
    rewrite E. apply H2. now exists x.
Qed.

Lemma PATTERN_UUID_at_consumes : consumes PATTERN_UUID_at.
Proof.
  unfold PATTERN_UUID_at.
  repeat apply and_then_consumes; try apply group_consumes. apply hexes_consumes.
Qed.

Lemma is_uuid_iff u : is_uuid u = true <-> PATTERN_UUID_at u = Some EmptyString.
Proof.
  unfold is_uuid. destruct (PATTERN_UUID_at u) as [[|c r]|]; split; congruence.
Qed.

Lemma test_iff s :
  test s = true <->
  exists pre rest r, s = (pre ++ rest)%string /\ PATTERN_UUID_at rest = Some r.
Proof.
  induction s as [|c s IH].
  - cbn. split; [discriminate|].
    intros (pre & rest & r & Hs & H).
    destruct pre; [|discriminate]. cbn in Hs. subst rest. discriminate.
  - change (test (String c s))
      with (match PATTERN_UUID_at (String c s) with
            | Some _ => true
            | None => test s
            end).
    destruct (PATTERN_UUID_at (String c s)) as [r|] eqn:E.
    + split; [|reflexivity]. intros _. now exists EmptyString, (String c s), r.
    + rewrite IH. split.
      * intros (pre & rest & r & -> & H). now exists (String c pre), rest, r.
      * intros (pre & rest & r & Hs & H). destruct pre as [|c' pre].
        -- cbn in Hs. subst rest. congruence.
        -- injection Hs as -> ->. now exists pre, rest, r.
Qed.

(** X8.  [PATTERN_UUID] has no anchors, and ajv tests it as it is: the three
    validators accept a string exactly when a UUID (8-4-4-4-12 lowercase
    hexadecimal digits) occurs somewhere in it, with anything before and after
    it. *)
Theorem test_accepts_what_contains_a_uuid (s : string) :
  test s = true <->
  exists pre u post, s = (pre ++ u ++ post)%string /\ is_uuid u = true.
Proof.
  rewrite test_iff. split.
  - intros (pre & rest & r & -> & H).
    apply PATTERN_UUID_at_consumes in H. destruct H as (u & -> & Hu).
    exists pre, u, r. split; [reflexivity|]. now apply is_uuid_iff.
  - intros (pre & u & post & -> & Hu). apply is_uuid_iff in Hu.
    exists pre, (u ++ post)%string, post. split; [reflexivity|].
    apply PATTERN_UUID_at_consumes. now exists u.
Qed.

End PatternFacts.

(** ** Registry, subscriptions and routing on the target *)

Module RegistryFacts.
Import Target TargetFacts TopicFacts.

Lemma append_cancel_r (x y z : string) : (x ++ z = y ++ z)%string -> x = y.
Proof.
  intros H. apply append_same_length in H; [tauto|].
  apply (f_equal String.length) in H. rewrite !append_length in H. lia.
Qed.

Lemma key_text_inj k k' :
  valid_key k -> valid_key k' -> key_text k = key_text k' -> k = k'.
Proof.
  destruct k as [s|], k' as [s'|]; cbn; intros Hk Hk' H; subst;
    try reflexivity; discriminate.
Qed.

Lemma topicTtyIn_inj a k k' :
  valid_key k -> valid_key k' -> topicTtyIn a k = topicTtyIn a k' -> k = k'.
Proof.
  intros Hk Hk' H. apply key_text_inj; auto.
  unfold topicTtyIn, topicTty, Topics.topicTtyIn, Topics.topicTty in H.
  apply append_cancel_r, append_cancel_l in H. now injection H.
Qed.

Lemma not_a_control_ending (x w : string) :
  w = "create" \/ w = "remove" -> (x ++ "/in")%string <> w.
Proof.
  intros Hw H. assert (L := f_equal String.length H).
  rewrite append_length in L.
  destruct Hw; subst w; cbn in L;
    destruct x as [|c1 [|c2 [|c3 [|c4 x]]]]; cbn in L; try lia;
    cbn in H; discriminate H.
Qed.

Lemma topicTtyIn_not_control a k :
  String.eqb (topicTtyIn a k) (topicCreate a) = false
  /\ String.eqb (topicTtyIn a k) (topicRemove a) = false.
Proof.
  split; apply String.eqb_neq;
    unfold topicTtyIn, topicTty, topicCreate, topicRemove, Topics.topicTtyIn,
      Topics.topicTty, Topics.topicCreate, Topics.topicRemove;
    rewrite !append_assoc; intros H; apply append_cancel_l in H;
    cbn [append] in H; injection H as H;
    revert H; apply not_a_control_ending; auto.
Qed.

Lemma In_subscribed t subs x : In x (subscribed t subs) <-> x = t \/ In x subs.
Proof.
  unfold subscribed. destruct (existsb (String.eqb t) subs) eqn:E.
  - split; [tauto|]. intros [->|H]; [|assumption].
    apply existsb_exists in E. destruct E as (y & Hy & Ey).
    apply String.eqb_eq in Ey. now subst.
  - rewrite in_app_iff. cbn. split.
    + intros [H|[H|[]]]; auto.
    + intros [H|H]; auto.
Qed.

Lemma NoDup_subscribed t subs : NoDup subs -> NoDup (subscribed t subs).
Proof.
  intros H. unfold subscribed. destruct (existsb (String.eqb t) subs) eqn:E; [assumption|].
  apply NoDup_app; [assumption|repeat constructor; intros []|].
  intros x Hx [<-|[]].
  assert (existsb (String.eqb t) subs = true); [|congruence].
  apply existsb_exists. exists t. split; [assumption|apply String.eqb_refl].
Qed.

Lemma In_unsubscribed t subs x : In x (unsubscribed t subs) <-> In x subs /\ x <> t.
Proof.
  unfold unsubscribed. rewrite filter_In.
  destruct (String.eqb_spec t x); cbn; split; intros [H1 H2]; split; congruence.
Qed.

Lemma In_keys_delete k (m : list (key * shell)) k' :
  In k' (map_keys (map_delete k m)) <-> In k' (map_keys m) /\ k' <> k.
Proof.
  unfold map_keys, map_delete. rewrite !in_map_iff. split.
  - intros (e & <- & He). apply filter_In in He. destruct He as [He Hk]. split.
    + now exists e.
    + intros E. rewrite E, key_eqb_refl in Hk. discriminate.
  - intros [(e & <- & He) Hne]. exists e. split; [reflexivity|].
    apply filter_In. split; [assumption|].
    destruct (key_eqb (fst e) k) eqn:E; [|reflexivity].
    apply key_eqb_eq in E. contradiction.
Qed.

Lemma keys_of_bindings m m' :
  bindings m' = bindings m -> map_keys m' = map_keys m.
Proof. intros H. now rewrite <- !bindings_keys, H. Qed.

Lemma params_id_valid params : VALIDATOR_CREATE params = true -> valid_key (params_id params).
Proof.
  unfold VALIDATOR_CREATE, params_id. destruct params; try discriminate.
  destruct (prop "id" props) as [[]|]; cbn; auto; discriminate.
Qed.

(** [ttyCreate] either leaves the state alone or ends in [created]. *)
Lemma ttyCreate_shape a msg st st' out :
  ttyCreate a msg st = Done tt st' out ->
  st' = st
  \/ exists k, valid_key k /\ map_get k (shells st) = None /\ st' = created a k st.
Proof.
  rewrite ttyCreate_cases. destruct msg as [raw|params]; [discriminate|].
  destruct (VALIDATOR_CREATE params) eqn:Hv; cbn [negb].
  - destruct (map_has (params_id params) (shells st)) eqn:Hhas.
    + intros H. injection H as <- _. now left.
    + intros H. injection H as <- _. right. exists (params_id params).
      split; [now apply params_id_valid|]. split; [|reflexivity].
      unfold map_has in Hhas. now destruct (map_get _ _).
  - intros H. injection H as <- _. now left.
Qed.

Lemma control_shape a t msg st st' out :
  control a t msg st = Done tt st' out ->
  st' = st
  \/ exists k, valid_key k /\ map_get k (shells st) = None /\ st' = created a k st.
Proof.
  unfold control. destruct (String.eqb t (topicCreate a)).
  - apply ttyCreate_shape.
  - destruct (String.eqb t (topicRemove a)).
    + intros H. apply ttyRemove_same in H. now left.
    + intros H. injection H as <- _. now left.
Qed.

Lemma created_turn a k st st' :
  valid_key k -> map_get k (shells st) = None ->
  map_keys (shells st') = map_keys (shells (created a k st)) ->
  subscriptions st' = subscriptions (created a k st) ->
  turn a st st'.
Proof.
  intros Hk Hnone Hkeys Hsubs. apply (turn_create a st st' k); auto.
  rewrite Hkeys. cbn [created shells]. rewrite (map_set_absent _ _ _ Hnone).
  unfold map_keys. now rewrite map_app.
Qed.

Lemma owner_In p m k : owner p m = Some k -> In k (map_keys m).
Proof.
  unfold owner. destruct (find _ m) as [[k' sh']|] eqn:E; [|discriminate].
  intros H. injection H as <-. apply find_some in E. destruct E as [E _].
  unfold map_keys. change k' with (fst (k', sh')). now apply in_map.
Qed.

Lemma step_turn a ev st st' out :
  step a ev st = Done tt st' out -> turn a st st'.
Proof.
  destruct ev as [| |t msg|t msg|p chunk|p]; cbn [step].
  - intros H. injection H as <- _. now apply turn_connect.
  - intros H. injection H as <- _. now apply turn_same.
  - intros H. apply control_shape in H.
    destruct H as [->|(k & Hk & Hnone & ->)]; [now apply turn_same|].
    now apply (created_turn a k).
  - intros H. apply bind_Done in H.
    destruct H as (st0 & s0 & o0 & o1 & Hget & H & _).
    injection Hget as <- <- _.
    apply bind_Done in H. destruct H as ([] & st1 & o2 & o3 & Hc & Hf & _).
    apply for_each_with_shell_same in Hf;
      [|intros k sh sh' o; apply onMessage_process].
    destruct Hf as (Hb & _ & Hsub). apply keys_of_bindings in Hb.
    apply control_shape in Hc.
    destruct Hc as [->|(k & Hk & Hnone & ->)]; [now apply turn_same|].
    now apply (created_turn a k).
  - intros H. apply bind_Done in H.
    destruct H as (st0 & s0 & o0 & o1 & Hget & H & _).
    injection Hget as <- <- _.
    destruct (owner p (shells st)) as [k|].
    + apply with_shell_same in H; [|intros sh sh' o; apply onData_process].
      destruct H as (Hb & _ & Hsub). apply keys_of_bindings in Hb.
      now apply turn_same.
    + injection H as <- _. now apply turn_same.
  - intros H. apply bind_Done in H.
    destruct H as (st0 & s0 & o0 & o1 & Hget & H & _).
    injection Hget as <- <- _.
    destruct (owner p (shells st)) as [k|] eqn:Ho.
    + rewrite onExit_cases in H. injection H as <- _.
      apply (turn_exit a st _ k); [now apply (owner_In p)|reflexivity|reflexivity].
    + injection H as <- _. now apply turn_same.
Qed.

Lemma tidy_initial a : tidy a initial.
Proof. split; cbn; try (intros ? []); constructor. Qed.

Lemma wanted_keys a st st' t :
  (forall k, In k (map_keys (shells st)) -> In k (map_keys (shells st'))) ->
  wanted a st t -> wanted a st' t.
Proof.
  intros Hk [H|[H|(k & Hin & H)]]; [now left|right; now left|].
  right. right. exists k. auto.
Qed.

Lemma turn_tidy a st st' : turn a st st' -> tidy a st -> tidy a st'.
Proof.
  intros Hturn [Hvalid Hsub Hwanted Hnd].
  destruct Hturn as [Hk Hs|Hk Hs|k Hvk Hnone Hk Hs|k Hin Hsh Hs].
  - split; rewrite ?Hk, ?Hs; auto.
    intros t Ht. apply (wanted_keys a st); [now rewrite Hk|auto].
  - split; rewrite ?Hk, ?Hs.
    + assumption.
    + intros k Hin. now apply In_subscribed; right; apply In_subscribed; right; apply Hsub.
    + intros t Ht. apply In_subscribed in Ht. destruct Ht as [->|Ht]; [right; now left|].
      apply In_subscribed in Ht. destruct Ht as [->|Ht]; [now left|].
      apply (wanted_keys a st); [now rewrite Hk|auto].
    + now apply NoDup_subscribed, NoDup_subscribed.
  - split; rewrite ?Hk, ?Hs.
    + intros k' Hk'. apply in_app_iff in Hk'. destruct Hk' as [Hk'|[<-|[]]]; auto.
    + intros k' Hk'. apply In_subscribed. apply in_app_iff in Hk'.
      destruct Hk' as [Hk'|[<-|[]]]; [right; auto|now left].
    + intros t Ht. apply In_subscribed in Ht. destruct Ht as [->|Ht].
      * right. right. exists k. split; [|reflexivity].
        rewrite Hk. apply in_app_iff. right. now left.
      * apply (wanted_keys a st); [|auto].
        intros k' Hk'. rewrite Hk. apply in_app_iff. now left.
    + now apply NoDup_subscribed.
  - split; rewrite ?Hsh, ?Hs.
    + intros k' Hk'. apply In_keys_delete in Hk'. now apply Hvalid.
    + intros k' Hk'. apply In_keys_delete in Hk'. destruct Hk' as [Hk' Hne].
      apply In_unsubscribed. split; [auto|].
      intros E. apply Hne. apply (topicTtyIn_inj a); auto.
    + intros t Ht. apply In_unsubscribed in Ht. destruct Ht as [Ht Hne].
      destruct (Hwanted t Ht) as [H|[H|(k' & Hk' & H)]]; [now left|right; now left|].
      right. right. exists k'. split; [|assumption].
      rewrite Hsh. apply In_keys_delete. split; [assumption|].
      intros ->. contradiction.
    + unfold unsubscribed. now apply NoDup_filter.
Qed.

Lemma reachable_tidy a st : reachable a st -> tidy a st.
Proof.
  induction 1 as [|st ev st' out _ IH Hstep]; [apply tidy_initial|].
  apply (turn_tidy a st); [|assumption]. now apply (step_turn a ev st st' out).
Qed.

(** X9.  In every state the program can reach, the registry and the
    subscriptions agree: the in topic of every session in [shells] is
    subscribed to; nothing is subscribed to but the create topic, the remove
    topic and the in topics of the sessions in [shells], so the exit of a
    session leaves no subscription behind; no topic is subscribed to twice;
    and every key of [shells] is [undefined] or a string the pattern
    matches. *)
Theorem registry_and_subscriptions_agree (a : args) (st : state) :
  reachable a st ->
  (forall k, In k (map_keys (shells st)) -> In (topicTtyIn a k) (subscriptions st))
  /\ (forall t, In t (subscriptions st) ->
        t = topicCreate a \/ t = topicRemove a
        \/ exists k, In k (map_keys (shells st)) /\ t = topicTtyIn a k)
  /\ NoDup (subscriptions st)
  /\ (forall k, In k (map_keys (shells st)) -> valid_key k).
Proof.
  intros H. apply reachable_tidy in H. destruct H as [H1 H2 H3 H4].
  repeat split; auto.
Qed.

End RegistryFacts.

Module RoutingFacts.
Import Target TargetFacts TopicFacts RegistryFacts.

Lemma map_set_same {V} k (v : V) m : map_get k m = Some v -> map_set k v m = m.
Proof.
  induction m as [|[k' v'] m IH]; cbn; [discriminate|].
  destruct (key_eqb k' k) eqn:E.
  - intros H. now injection H as ->.
  - intros H. now rewrite IH.
Qed.

Lemma map_get_set_other {V} k k' (v : V) m :
  k' <> k -> map_get k' (map_set k v m) = map_get k' m.
Proof.
  intros Hne. induction m as [|[k0 v0] m IH]; cbn.
  - apply key_eqb_neq in Hne. destruct (key_eqb k k') eqn:E; [|reflexivity].
    apply key_eqb_eq in E. subst. now rewrite key_eqb_refl in Hne.
  - destruct (key_eqb k0 k) eqn:E; cbn.
    + apply key_eqb_eq in E. subst k0.
      destruct (key_eqb k k') eqn:E'; [|reflexivity].
      apply key_eqb_eq in E'. congruence.
    + destruct (key_eqb k0 k'); [reflexivity|assumption].
Qed.

Lemma map_get_set_same {V} k (v v0 : V) m :
  map_get k m = Some v0 -> map_get k (map_set k v m) = Some v.
Proof.
  induction m as [|[k0 v1] m IH]; cbn; [discriminate|].
  destruct (key_eqb k0 k) eqn:E; cbn; rewrite E; auto.
Qed.

(** A shell listener on a topic that is not its own returns at once, whatever
    the body of the message. *)
Lemma with_shell_other a k t msg st :
  t <> topicTtyIn a k ->
  with_shell k (onMessage a k t msg) st = Done tt st [].
Proof.
  intros Hne. apply String.eqb_neq in Hne.
  destruct st as [m subs n]. unfold with_shell. cbn [shells subscriptions spawned].
  destruct (map_get k m) as [sh|] eqn:Hget; [|reflexivity].
  unfold onMessage. rewrite Hne. cbn [negb]. unfold ret.
  now rewrite (map_set_same _ _ _ Hget).
Qed.

Lemma for_each_others a t msg ks : forall st,
  (forall k, In k ks -> t <> topicTtyIn a k) ->
  for_each ks (fun k => with_shell k (onMessage a k t msg)) st = Done tt st [].
Proof.
  induction ks as [|k ks IH]; intros st Hne; cbn [for_each]; [reflexivity|].
  unfold bind. rewrite with_shell_other by (apply Hne; now left).
  rewrite IH by (intros k' Hk'; apply Hne; now right). reflexivity.
Qed.

Lemma for_each_routed a k msg ks : forall st,
  NoDup ks -> In k ks ->
  (forall k', In k' ks -> k' <> k -> topicTtyIn a k <> topicTtyIn a k') ->
  for_each ks (fun k' => with_shell k' (onMessage a k' (topicTtyIn a k) msg)) st =
  with_shell k (onMessage a k (topicTtyIn a k) msg) st.
Proof.
  induction ks as [|k0 ks IH]; intros st Hnd Hin Hne; [destruct Hin|].
  inversion Hnd as [|? ? Hnotin Hnd']; subst. cbn [for_each].
  destruct Hin as [->|Hin].
  - unfold bind.
    destruct (with_shell k (onMessage a k (topicTtyIn a k) msg) st)
      as [[] st1 o1|e st1 o1]; [|reflexivity].
    rewrite for_each_others.
    + now rewrite app_nil_r.
    + intros k' Hk'. apply Hne; [now right|]. intros ->. contradiction.
  - assert (k0 <> k) by (intros ->; contradiction).
    unfold bind at 1. rewrite with_shell_other by (apply Hne; [now left|assumption]).
    rewrite IH; auto.
    + now destruct (with_shell k (onMessage a k (topicTtyIn a k) msg) st).
    + intros k' Hk'. apply Hne. now right.
Qed.


(** X11.  A message on a topic that is neither a control topic nor the in
    topic of a session in [shells] (a session that was never created, or one
    whose process has exited) is ignored: no listener parses it, so even a
    body that is no JSON throws nothing; nothing is called and the state is
    the one before. *)
Theorem stray_message_is_ignored (a : args) (st : state) (t : string)
    (msg : wire packet) :
  t <> topicCreate a ->
  t <> topicRemove a ->
  (forall k, In k (map_keys (shells st)) -> t <> topicTtyIn a k) ->
  step a (EvStream t msg) st = Done tt st [].
Proof.
  intros Hc Hr Hk. apply String.eqb_neq in Hc, Hr.
  cbn [step]. unfold bind at 1, get at 1. unfold bind at 1. unfold control.
  rewrite Hc, Hr. unfold ret at 1.
  now rewrite (for_each_others a t msg _ st Hk).
Qed.

(** X12.  A remove for an identifier that has no entry (never created, or
    already cleaned up after the exit of its process), with a payload the
    validator accepts, logs the warning and does nothing else: no process is
    signalled, nothing is published, and the state is the one before. *)
Theorem remove_unknown_is_noop (a : args) (st : state) (params : json) :
  VALIDATOR_REMOVE params = true ->
  map_get (params_id params) (shells st) = None ->
  step a (EvControl (topicRemove a) (Parsed params)) st =
  Done tt st [Log Warn "shell does not exist"].
Proof.
  intros Hv Hget. cbn [step]. unfold control.
  rewrite topicRemove_not_topicCreate, String.eqb_refl, ttyRemove_cases, Hv.
  cbn [negb]. now rewrite Hget.
Qed.

(** X13.  An identifier whose process has exited can be created again: the
    exit turn followed by a create for the same identifier unsubscribes and
    publishes the list without it, then spawns a process that is not the old
    one, subscribes again and publishes the list with the identifier last; the
    new entry starts with both counters at 0 and an empty buffer, whatever the
    old one held. *)
Theorem session_can_be_created_again (a : args) (st : state) (params : json)
    (sh : shell) :
  reachable a st ->
  VALIDATOR_CREATE params = true ->
  map_get (params_id params) (shells st) = Some sh ->
  for_each
    [EvExit (process sh); EvControl (topicCreate a) (Parsed params)] (step a) st =
  Done tt (created a (params_id params) (exited a (params_id params) st))
    [Unsubscribe (topicTtyIn a (params_id params));
     Publish (topicList a)
       (JArr (map key_json (map_keys (map_delete (params_id params) (shells st))))) 1;
     Log Info "";
     Spawn (arg_shell a) (spawned st);
     Subscribe (topicTtyIn a (params_id params));
     Publish (topicList a)
       (JArr (map key_json
                (map_keys (map_delete (params_id params) (shells st))
                 ++ [params_id params]))) 1]
  /\ map_get (params_id params)
       (shells (created a (params_id params) (exited a (params_id params) st))) =
     Some {| process := spawned st; seqIn := 0; seqOut := 0; bufferIn := [] |}
  /\ process sh <> spawned st.
Proof.
  intros Hreach Hv Hget. pose proof (reachable_wf a st Hreach) as Hwf.
  set (k := params_id params) in *.
  assert (Hnone : map_get k (shells (exited a k st)) = None).
  { cbn [exited shells]. apply map_get_None. intros Hin.
    apply In_keys_delete in Hin. now destruct Hin. }
  assert (Hexit : step a (EvExit (process sh)) st =
                  Done tt (exited a k st)
                    [Unsubscribe (topicTtyIn a k);
                     Publish (topicList a)
                       (JArr (map key_json (map_keys (map_delete k (shells st))))) 1]).
  { cbn [step]. unfold bind at 1, get at 1.
    now rewrite (owner_of_bound st k sh Hwf Hget), onExit_cases. }
  assert (Hcreate : step a (EvControl (topicCreate a) (Parsed params)) (exited a k st) =
                    Done tt (created a k (exited a k st))
                      [Log Info ""; Spawn (arg_shell a) (spawned st);
                       Subscribe (topicTtyIn a k);
                       Publish (topicList a)
                         (JArr (map key_json
                                  (map_keys (map_delete k (shells st)) ++ [k]))) 1]).
  { cbn [step]. unfold control. rewrite String.eqb_refl, ttyCreate_cases, Hv.
    cbn [negb]. unfold map_has. fold k. rewrite Hnone.
    cbn [created shells spawned exited]. cbn [exited shells] in Hnone.
    rewrite (map_set_absent _ _ _ Hnone). unfold map_keys. now rewrite map_app. }
  split; [|split].
  - cbn [for_each]. unfold bind. rewrite Hexit, Hcreate. reflexivity.
  - cbn [created shells]. cbn [exited shells] in *.
    rewrite (map_set_absent _ _ _ Hnone).
    clear - Hnone. induction (map_delete k (shells st)) as [|[k' v'] m IH]; cbn.
    + now rewrite key_eqb_refl.
    + cbn in Hnone. destruct (key_eqb k' k); [discriminate|]. now apply IH.
  - destruct Hwf as [_ _ Hfresh]. rewrite Forall_forall in Hfresh.
    apply map_get_In in Hget.
    assert (Hb : In (k, process sh) (bindings (shells st))).
    { unfold bindings. change (k, process sh) with ((fun e => (fst e, process (snd e))) (k, sh)).
      now apply in_map. }
    specialize (Hfresh _ Hb). cbn in Hfresh. lia.
Qed.

(** X14.  [properties.id] is not required by the schema: a create whose
    payload is an object without [id] passes the validator, and a shell is
    spawned and stored under the key [undefined], with the in topic
    [base/undefined/in]; a second payload of that kind is then refused as
    already existing. *)
Theorem create_without_id_uses_undefined (a : args) (st : state)
    (props : list (string * json)) :
  prop "id" props = None ->
  map_get None (shells st) = None ->
  for_each
    [EvControl (topicCreate a) (Parsed (JObj props));
     EvControl (topicCreate a) (Parsed (JObj props))] (step a) st =
  Done tt (created a None st)
    [Log Info "";
     Spawn (arg_shell a) (spawned st);
     Subscribe (topic a ++ "/undefined/in")%string;
     Publish (topicList a) (JArr (map key_json (map_keys (shells st)) ++ [JNull])) 1;
     Log Warn "shell already exists"]
  /\ map_get None (shells (created a None st)) =
     Some {| process := spawned st; seqIn := 0; seqOut := 0; bufferIn := [] |}.
Proof.
  intros Hid Hnone.
  assert (Hv : VALIDATOR_CREATE (JObj props) = true) by (cbn; now rewrite Hid).
  assert (Hk : params_id (JObj props) = None) by (cbn; now rewrite Hid).
  assert (Hnew : map_get None (shells (created a None st)) =
                 Some {| process := spawned st; seqIn := 0; seqOut := 0; bufferIn := [] |}).
  { cbn [created shells]. rewrite (map_set_absent _ _ _ Hnone).
    clear - Hnone. induction (shells st) as [|[k' v'] m IH]; cbn; [reflexivity|].
    cbn in Hnone. destruct (key_eqb k' None); [discriminate|]. now apply IH. }
  assert (Hfirst : step a (EvControl (topicCreate a) (Parsed (JObj props))) st =
                   Done tt (created a None st)
                     [Log Info "";
                      Spawn (arg_shell a) (spawned st);
                      Subscribe (topic a ++ "/undefined/in")%string;
                      Publish (topicList a)
                        (JArr (map key_json (map_keys (shells st)) ++ [JNull])) 1]).
  { cbn [step]. unfold control. rewrite String.eqb_refl, ttyCreate_cases, Hv, Hk.
    cbn [negb]. unfold map_has. rewrite Hnone.
    cbn [created shells]. rewrite (map_set_absent _ _ _ Hnone).
    unfold map_keys. rewrite !map_app. cbn [map fst key_json app].
    unfold topicTtyIn, topicTty, Topics.topicTtyIn, Topics.topicTty, key_text.
    rewrite !append_assoc. reflexivity. }
  assert (Hsecond : step a (EvControl (topicCreate a) (Parsed (JObj props)))
                      (created a None st) =
                    Done tt (created a None st) [Log Warn "shell already exists"]).
  { cbn [step]. unfold control. rewrite String.eqb_refl, ttyCreate_cases, Hv, Hk.
    cbn [negb]. unfold map_has. now rewrite Hnew. }
  split; [|exact Hnew].
  cbn [for_each]. unfold bind. rewrite Hfirst, Hsecond. reflexivity.
Qed.

End RoutingFacts.

Module StreamFacts.
Import Target TargetFacts TopicFacts RegistryFacts RoutingFacts.

(** The turn for a packet on the in topic of a session in [shells]. *)
Lemma stream_turn a st k sh p :
  reachable a st ->
  map_get k (shells st) = Some sh ->
  step a (EvStream (topicTtyIn a k) (Parsed p)) st =
  (let '(n, b, sunk) := Sequencer.receive (seqIn sh) (bufferIn sh) p in
   Done tt
     (put_shell k
        {| process := process sh; seqIn := n; seqOut := seqOut sh; bufferIn := b |} st)
     (map (PtyWrite (process sh)) sunk)).
Proof.
  intros Hreach Hget.
  pose proof (reachable_wf a st Hreach) as Hwf.
  pose proof (reachable_tidy a st Hreach) as Htidy.
  assert (Hkeys : NoDup (map_keys (shells st)))
    by (rewrite <- bindings_keys; apply Hwf).
  assert (Hin : In k (map_keys (shells st))).
  { apply map_get_In in Hget. unfold map_keys.
    change k with (fst (k, sh)). now apply in_map. }
  cbn [step]. unfold bind at 1, get at 1.
  unfold bind at 1. unfold control.
  destruct (topicTtyIn_not_control a k) as [-> ->]. unfold ret at 1.
  rewrite (for_each_routed a k (Parsed p) (map_keys (shells st)) st Hkeys Hin).
  - unfold with_shell. rewrite Hget, (target_listener_receive a k p sh).
    now destruct (Sequencer.receive (seqIn sh) (bufferIn sh) p) as [[n b] sunk].
  - intros k' Hk' Hne E. apply Hne. symmetry.
    apply (topicTtyIn_inj a); [| |exact E]; now apply (tidy_valid a st Htidy).
Qed.

Lemma map_set_twice {V} k (v1 v2 : V) m :
  map_set k v2 (map_set k v1 m) = map_set k v2 m.
Proof.
  induction m as [|[k' v'] m IH]; cbn.
  - now rewrite key_eqb_refl.
  - destruct (key_eqb k' k) eqn:E; cbn; rewrite E; [reflexivity|now rewrite IH].
Qed.

Lemma put_shell_twice k sh1 sh2 st :
  put_shell k sh2 (put_shell k sh1 st) = put_shell k sh2 st.
Proof. unfold put_shell. cbn. now rewrite map_set_twice. Qed.

Lemma put_shell_same k sh st :
  map_get k (shells st) = Some sh ->
  put_shell k
    {| process := process sh; seqIn := seqIn sh; seqOut := seqOut sh;
       bufferIn := bufferIn sh |} st = st.
Proof.
  intros H. destruct st as [m subs n], sh as [pr si so bi]. unfold put_shell. cbn in *.
  now rewrite (map_set_same _ _ _ H).
Qed.

(** Packets on the in topic of a session, turn after turn: the reorder buffer
    of that session runs on them. *)
Lemma stream_run a k l : forall st sh,
  reachable a st ->
  map_get k (shells st) = Some sh ->
  for_each (map (fun q => EvStream (topicTtyIn a k) (Parsed q)) l) (step a) st =
  (let '(n, b, sunk) := Sequencer.run (seqIn sh) (bufferIn sh) l in
   Done tt
     (put_shell k
        {| process := process sh; seqIn := n; seqOut := seqOut sh; bufferIn := b |} st)
     (map (PtyWrite (process sh)) sunk)).
Proof.
  induction l as [|p rest IH]; intros st sh Hreach Hget; cbn [map for_each Sequencer.run].
  - unfold ret. now rewrite put_shell_same.
  - unfold bind. pose proof (stream_turn a st k sh p Hreach Hget) as Hturn.
    destruct (Sequencer.receive (seqIn sh) (bufferIn sh) p) as [[n1 b1] sunk1].
    rewrite Hturn.
    set (sh1 := {| process := process sh; seqIn := n1; seqOut := seqOut sh;
                   bufferIn := b1 |}).
    assert (Hreach1 : reachable a (put_shell k sh1 st))
      by (eapply reach_step; [exact Hreach|exact Hturn]).
    assert (Hget1 : map_get k (shells (put_shell k sh1 st)) = Some sh1)
      by (cbn [put_shell shells]; now apply (map_get_set_same k sh1 sh)).
    rewrite (IH _ sh1 Hreach1 Hget1). cbn [sh1 process seqIn seqOut bufferIn].
    destruct (Sequencer.run n1 b1 rest) as [[n2 b2] sunk2].
    now rewrite put_shell_twice, map_app.
Qed.

(** X15.  Reassembly through the whole target, with any number of other
    sessions open: the packets numbered 0 to N-1, arriving in any order on the
    in topic of a session that has received nothing yet, are written to that
    session's process in the order of numbering, each once; the session ends
    with its counter at N and an empty buffer, and every other session is as
    it was. *)
Theorem target_reassembles_per_session (a : args) (st : state) (k : key) (sh : shell)
    (chunks : list string) (l : list packet) :
  reachable a st ->
  map_get k (shells st) = Some sh ->
  seqIn sh = 0 ->
  bufferIn sh = [] ->
  Permutation l (Sequencer.numbered 0 chunks) ->
  for_each (map (fun q => EvStream (topicTtyIn a k) (Parsed q)) l) (step a) st =
  Done tt
    (put_shell k
       {| process := process sh; seqIn := Z.of_nat (List.length chunks);
          seqOut := seqOut sh; bufferIn := [] |} st)
    (map (PtyWrite (process sh)) chunks)
  /\ forall k' sh', k' <> k ->
       map_get k' (shells (put_shell k sh' st)) = map_get k' (shells st).
Proof.
  intros Hreach Hget Hs Hb HP. split.
  - rewrite (stream_run a k l st sh Hreach Hget), Hs, Hb.
    now rewrite (SequencerFacts.run_permutation chunks l HP).
  - intros k' sh' Hne. cbn [put_shell shells]. now apply map_get_set_other.
Qed.

End StreamFacts.

(** ** More on the connections of the master *)

Module ConnectionFacts.
Import Master MasterFacts.

Lemma step_pong prefix c :
  step prefix EvPong c =
  Done tt
    {| targetId := targetId c; ttyId := ttyId c; isAlive := true;
       heartbeat := heartbeat c; seqIn := seqIn c; seqOut := seqOut c;
       bufferOut := bufferOut c; listening := listening c |} [].
Proof. reflexivity. Qed.

(** One interval with a pong in it: the tick pings and does not terminate. *)
Lemma answered_interval_run prefix r c :
  heartbeat c = true ->
  Forall (fun ev => quiet ev = true) (fst r) ->
  Forall (fun ev => quiet ev = true) (snd r) ->
  exists c' out,
    run prefix (answered_interval r) c = Done tt c' out
    /\ same_session c c'
    /\ count is_terminate out = 0%nat
    /\ count is_ping out = 1%nat.
Proof.
  intros Hh Hq1 Hq2. unfold answered_interval.
  destruct (run_quiet prefix (fst r) c Hq1) as (ca & oa & Ra & Sa & _ & Ta & Pa & _).
  set (cb := {| targetId := targetId ca; ttyId := ttyId ca; isAlive := true;
                heartbeat := heartbeat ca; seqIn := seqIn ca; seqOut := seqOut ca;
                bufferOut := bufferOut ca; listening := listening ca |}).
  assert (Sb : same_session c cb)
    by (apply (same_session_trans c ca cb); [assumption|now split]).
  destruct (run_quiet prefix (snd r) cb Hq2) as (cc & oc & Rc & Sc & Ac & Tc & Pc & _).
  assert (Scc : same_session c cc) by now apply (same_session_trans c cb cc).
  assert (Rd : step prefix EvTick cc = Done tt
                 {| targetId := targetId cc; ttyId := ttyId cc; isAlive := false;
                    heartbeat := heartbeat cc; seqIn := seqIn cc; seqOut := seqOut cc;
                    bufferOut := bufferOut cc; listening := listening cc |} [WsPing]).
  { rewrite step_tick, Ac. cbn [isAlive cb].
    destruct (heartbeat cc) eqn:E; [reflexivity|].
    rewrite (same_heartbeat _ _ Scc), Hh in E. discriminate. }
  eexists _, (oa ++ [] ++ oc ++ [WsPing]). split.
  { apply (run_Done_app _ _ _ _ ca oa); [assumption|].
    apply (run_Done_app _ _ _ _ cb []); [apply run_one, step_pong|].
    apply (run_Done_app _ _ _ _ cc oc); [assumption|].
    apply run_one. exact Rd. }
  split.
  - apply (same_session_trans c cc); [assumption|now split].
  - rewrite !count_app, Ta, Tc, Pa, Pc. split; reflexivity.
Qed.

(** X16.  A client that answers every ping is never cut off: over any number
    of intervals in each of which a pong arrives before the tick, with client
    data, socket errors and broker packets anywhere in between, every tick
    sends one ping and no tick calls [terminate]; the timer stays set.  The
    flag the connection starts an interval with does not matter. *)
Theorem answered_heartbeat_never_terminates (prefix : string) (c : conn)
    (rounds : list (list event * list event)) :
  heartbeat c = true ->
  Forall (fun r => Forall (fun ev => quiet ev = true) (fst r)
                   /\ Forall (fun ev => quiet ev = true) (snd r)) rounds ->
  exists c' out,
    run prefix (flat_map answered_interval rounds) c = Done tt c' out
    /\ count is_terminate out = 0%nat
    /\ count is_ping out = List.length rounds
    /\ heartbeat c' = true
    /\ ttyId c' = ttyId c.
Proof.
  revert c. induction rounds as [|r rounds IH]; intros c Hh Hq.
  - exists c, []. repeat split; auto.
  - inversion Hq as [|? ? [Hq1 Hq2] Hrest]; subst.
    destruct (answered_interval_run prefix r c Hh Hq1 Hq2) as (c1 & o1 & R1 & S1 & T1 & P1).
    assert (Hh1 : heartbeat c1 = true) by (rewrite (same_heartbeat _ _ S1); exact Hh).
    destruct (IH c1 Hh1 Hrest) as (c2 & o2 & R2 & T2 & P2 & Hh2 & Hid2).
    exists c2, (o1 ++ o2). cbn [flat_map]. split.
    + now apply (run_Done_app _ _ _ _ c1 o1).
    + rewrite !count_app, T1, T2, P1, P2. cbn [List.length].
      repeat split; auto. rewrite Hid2. apply (same_ttyId _ _ S1).
Qed.

End ConnectionFacts.

Module ProtocolFacts.
Import TopicFacts.

Lemma topicTtyOut_inj prefix (c c0 : Master.conn) :
  Pattern.is_uuid (Master.ttyId c) = true ->
  Pattern.is_uuid (Master.ttyId c0) = true ->
  Master.topicTtyOut prefix c = Master.topicTtyOut prefix c0 ->
  Master.ttyId c = Master.ttyId c0.
Proof.
  intros Hu Hu0 H. apply is_uuid_length in Hu, Hu0.
  unfold Master.topicTtyOut, Master.topicTty, Master.topic, Topics.topicTtyOut,
    Topics.topicTty, Topics.topic in H.
  apply RegistryFacts.append_cancel_r in H. rewrite !append_assoc in H.
  apply append_cancel_l in H.
  assert (L := f_equal String.length H). rewrite !append_length in L.
  cbn [append String.length] in L.
  apply append_same_length in H; [|lia].
  destruct H as [_ H]. now injection H.
Qed.

(** [onMessage] of a connection on a topic that is not its out topic. *)
Lemma other_connection_is_untouched prefix t msg c :
  t <> Master.topicTtyOut prefix c ->
  Master.step prefix (Master.EvMessage t msg) c = Done tt c [].
Proof.
  intros Hne. apply String.eqb_neq in Hne.
  cbn [Master.step]. unfold bind at 1, get at 1.
  destruct (Master.listening c); [|reflexivity].
  unfold Master.onMessage. unfold bind at 1, get at 1. now rewrite Hne.
Qed.

Lemma broadcast_others prefix t msg cs :
  (forall c, In c cs -> t <> Master.topicTtyOut prefix c) ->
  Master.broadcast prefix t msg cs = Done tt cs [].
Proof.
  induction cs as [|c cs IH]; intros Hne; cbn [Master.broadcast]; [reflexivity|].
  rewrite other_connection_is_untouched by (apply Hne; now left).
  now rewrite IH by (intros c' Hc'; apply Hne; now right).
Qed.

(** X17.  Connections of one master do not see each other's output.  With
    session identifiers that are UUIDs and differ from one connection to the
    next, as [uuid.v4] gives them, a broker message on the out topic of one
    connection is handled by the [onMessage] of that connection alone,
    whichever targets the connections are for: every other connection keeps
    its counters and its buffer and sends nothing to its client, and the
    outcome of the emit is the outcome of that one listener. *)
Theorem broadcast_reaches_its_connection_only (prefix : string)
    (before after : list Master.conn) (c : Master.conn) (msg : wire packet) :
  Pattern.is_uuid (Master.ttyId c) = true ->
  (forall c0, In c0 (before ++ after) ->
     Pattern.is_uuid (Master.ttyId c0) = true /\ Master.ttyId c0 <> Master.ttyId c) ->
  Master.broadcast prefix (Master.topicTtyOut prefix c) msg (before ++ c :: after) =
  match Master.step prefix (Master.EvMessage (Master.topicTtyOut prefix c) msg) c with
  | Done _ c' out => Done tt (before ++ c' :: after) out
  | Uncaught e c' out => Uncaught e (before ++ c' :: after) out
  end.
Proof.
  intros Hu Hothers.
  assert (Hne : forall c0, In c0 (before ++ after) ->
                  Master.topicTtyOut prefix c <> Master.topicTtyOut prefix c0).
  { intros c0 Hc0 E. destruct (Hothers c0 Hc0) as [Hu0 Hid].
    apply Hid. symmetry. now apply (topicTtyOut_inj prefix c c0). }
  induction before as [|c0 before IH]; cbn [app Master.broadcast].
  - destruct (Master.step prefix (Master.EvMessage (Master.topicTtyOut prefix c) msg) c)
      as [[] c' out|e c' out]; [|reflexivity].
    rewrite broadcast_others by (intros c0 Hc0; apply Hne; exact Hc0).
    now rewrite app_nil_r.
  - rewrite other_connection_is_untouched by (apply Hne; now left).
    rewrite IH.
    + now destruct (Master.step prefix
                      (Master.EvMessage (Master.topicTtyOut prefix c) msg) c).
    + intros c1 Hc1. apply Hothers. now right.
    + intros c1 Hc1. apply Hne. now right.
Qed.

(** X18.  Master and target agree on the protocol.  For a connection to the
    target's own identifier and with the target's prefix, the master derives
    the topics the target derives; the create message it publishes on connect
    is one the target's validator accepts, and makes the target spawn a
    process, store it under the master's session identifier and subscribe to
    the topic the master publishes the client's input on; and the remove
    message the master publishes on close makes the target signal exactly
    that process. *)
Theorem master_and_target_agree (a : Target.args) (fresh : string)
    (c : Master.conn) (out : list effect) (st : Target.state) :
  Master.connection (Target.arg_prefix a) (Some (Target.arg_id a)) fresh = (Some c, out) ->
  Pattern.test fresh = true ->
  Target.map_get (Some fresh) (Target.shells st) = None ->
  (Master.topicCreate (Target.arg_prefix a) c = Target.topicCreate a
   /\ Master.topicRemove (Target.arg_prefix a) c = Target.topicRemove a
   /\ Master.topicTtyIn (Target.arg_prefix a) c = Target.topicTtyIn a (Some fresh)
   /\ Master.topicTtyOut (Target.arg_prefix a) c = Target.topicTtyOut a (Some fresh))
  /\ In (Publish (Target.topicCreate a) (JObj [("id", JStr fresh)]) 1) out
  /\ Target.step a
       (Target.EvControl (Target.topicCreate a) (Parsed (JObj [("id", JStr fresh)]))) st =
     Done tt (Target.created a (Some fresh) st)
       [Log Info "";
        Spawn (Target.arg_shell a) (Target.spawned st);
        Subscribe (Master.topicTtyIn (Target.arg_prefix a) c);
        Publish (Target.topicList a)
          (JArr (map Target.key_json
                   (Target.map_keys (Target.shells (Target.created a (Some fresh) st))))) 1]
  /\ (exists c',
        Master.step (Target.arg_prefix a) Master.EvClose c =
        Done tt c'
          [Log Info "disconnected"; ClearInterval;
           Unsubscribe (Target.topicTtyOut a (Some fresh));
           Publish (Target.topicRemove a) (JObj [("id", JStr fresh)]) 1])
  /\ Target.step a
       (Target.EvControl (Target.topicRemove a) (Parsed (JObj [("id", JStr fresh)])))
       (Target.created a (Some fresh) st) =
     Done tt (Target.created a (Some fresh) st)
       [Log Info ""; Kill (Target.spawned st) 9].
Proof.
  intros Hconn Hfresh Hnone.
  assert (Hc : c = {| Master.targetId := Target.arg_id a; Master.ttyId := fresh;
                      Master.isAlive := true; Master.heartbeat := true;
                      Master.seqIn := 0; Master.seqOut := 0;
                      Master.bufferOut := []; Master.listening := true |}
               /\ In (Publish (Target.topicCreate a) (JObj [("id", JStr fresh)]) 1) out).
  { unfold Master.connection in Hconn.
    destruct (VALIDATOR_TARGET (Some (Target.arg_id a))); cbn [negb] in Hconn;
      [|discriminate].
    injection Hconn as <- <-. split; [reflexivity|]. right. right. now left. }
  destruct Hc as [-> Hpub].
  assert (Hv : VALIDATOR_CREATE (JObj [("id", JStr fresh)]) = true)
    by (cbn; exact Hfresh).
  assert (Hbound : Target.map_get (Some fresh)
                     (Target.shells (Target.created a (Some fresh) st)) =
                   Some {| Target.process := Target.spawned st; Target.seqIn := 0;
                           Target.seqOut := 0; Target.bufferIn := [] |}).
  { cbn [Target.created Target.shells].
    rewrite (TargetFacts.map_set_absent _ _ _ Hnone).
    clear - Hnone. induction (Target.shells st) as [|[k' v'] m IH]; cbn.
    - now rewrite String.eqb_refl.
    - cbn in Hnone. destruct (Target.key_eqb k' (Some fresh)); [discriminate|].
      now apply IH. }
  split; [repeat split|]. split; [exact Hpub|]. split; [|split].
  - cbn [Target.step]. unfold Target.control.
    rewrite String.eqb_refl, TargetFacts.ttyCreate_cases, Hv. cbn [negb].
    unfold Target.map_has. cbn [Target.params_id prop String.eqb Ascii.eqb Bool.eqb].
    rewrite Hnone. reflexivity.
  - eexists. reflexivity.
  - cbn [Target.step]. unfold Target.control.
    rewrite TargetFacts.topicRemove_not_topicCreate, String.eqb_refl,
      TargetFacts.ttyRemove_cases.
    unfold VALIDATOR_REMOVE. rewrite Hv. cbn [negb].
    cbn [Target.params_id prop String.eqb Ascii.eqb Bool.eqb].
    rewrite Hbound. reflexivity.
Qed.

End ProtocolFacts.

Module CloseFacts.
Import Master MasterFacts.

(** X19.  [close] detaches the connection: it clears the timer and takes
    [onMessage] off the broker client, so whatever ticks and broker messages
    come after it (on the out topic of the session too, and with a body that
    is no JSON too) call nothing, send nothing to the socket and throw
    nothing; the calls of the whole run are the four of [close]. *)
Theorem closed_connection_is_detached (prefix : string) (c : conn) (later : list event) :
  Forall (fun ev => detachable ev = true) later ->
  run prefix (EvClose :: later) c =
  Done tt
    {| targetId := targetId c; ttyId := ttyId c; isAlive := isAlive c;
       heartbeat := false; seqIn := seqIn c; seqOut := seqOut c;
       bufferOut := bufferOut c; listening := false |}
    [Log Info "disconnected";
     ClearInterval;
     Unsubscribe (topicTtyOut prefix c);
     Publish (topicRemove prefix c) (JObj [("id", JStr (ttyId c))]) 1].
Proof.
  intros Hlater.
  assert (Hrest : forall c0, heartbeat c0 = false -> listening c0 = false ->
                    run prefix later c0 = Done tt c0 []).
  { induction later as [|ev later IH]; intros c0 Hh Hl; [reflexivity|].
    inversion Hlater as [|? ? Hev Hlater']; subst.
    assert (Hstep : step prefix ev c0 = Done tt c0 []).
    { destruct ev; try discriminate; cbn [step]; unfold bind, get;
        rewrite ?Hh, ?Hl; reflexivity. }
    change (ev :: later) with ([ev] ++ later).
    rewrite (run_Done_app prefix [ev] later c0 c0 [] c0 []); auto.
    now apply run_one. }
  change (EvClose :: later) with ([EvClose] ++ later).
  erewrite run_Done_app; [|apply run_one; reflexivity|apply Hrest; reflexivity].
  now rewrite app_nil_r.
Qed.

End CloseFacts.

Module ListFacts.
Import Target TargetFacts TopicFacts RegistryFacts.

Lemma topicTtyOut_not_list a k : topicTtyOut a k <> topicList a.
Proof.
  unfold topicTtyOut, topicTty, topicList, Topics.topicTtyOut, Topics.topicTty,
    Topics.topicList.
  rewrite !append_assoc. intros H. apply append_cancel_l in H.
  cbn [append] in H. injection H as H.
  assert (L := f_equal String.length H). rewrite append_length in L. cbn in L.
  destruct (key_text k) as [|c1 x]; cbn in L; [discriminate H|lia].
Qed.

Lemma for_each_writes a t msg ks : forall st st' out,
  for_each ks (fun k => with_shell k (onMessage a k t msg)) st = Done tt st' out ->
  Forall is_write out.
Proof.
  induction ks as [|k ks IH]; intros st st' out; cbn [for_each].
  - intros H. injection H as _ <-. constructor.
  - intros H. apply bind_Done in H.
    destruct H as ([] & st1 & o1 & o2 & H1 & H2 & ->).
    apply Forall_app. split; [|now apply (IH st1 st')].
    unfold with_shell in H1. destruct (map_get k (shells st)) as [sh|].
    + destruct (onMessage a k t msg sh) as [[] sh' o|e sh' o] eqn:E; [|discriminate].
      injection H1 as _ <-. unfold onMessage in E.
      destruct (negb (String.eqb t (topicTtyIn a k))).
      * injection E as _ <-. constructor.
      * destruct msg as [raw|p]; [discriminate|].
        unfold bind, parse, get, put, ret in E. cbn [JSON_parse] in E.
        destruct (Sequencer.receive (seqIn sh) (bufferIn sh) p) as [[n b] sunk].
        injection E as _ <-. cbn [app]. apply Forall_forall. intros e He.
        apply in_map_iff in He. destruct He as (x & <- & _). now exists (process sh), x.
    + injection H1 as _ <-. constructor.
Qed.

Lemma write_is_no_list a st e : is_write e -> e <> lists a st.
Proof. intros (p & chunk & ->). discriminate. Qed.

(** What a turn publishes on the list topic, and when. *)
Lemma step_lists a ev st st' out :
  step a ev st = Done tt st' out ->
  (forall payload qos,
     In (Publish (topicList a) payload qos) out ->
     Publish (topicList a) payload qos = lists a st')
  /\ (map_keys (shells st') <> map_keys (shells st) -> In (lists a st') out).
Proof.
  assert (Hcreate : forall msg s s' o,
             ttyCreate a msg s = Done tt s' o ->
             (forall payload qos,
                In (Publish (topicList a) payload qos) o ->
                Publish (topicList a) payload qos = lists a s')
             /\ (map_keys (shells s') <> map_keys (shells s) -> In (lists a s') o)).
  { intros msg s s' o. rewrite ttyCreate_cases.
    destruct msg as [raw|params]; [discriminate|].
    destruct (negb (VALIDATOR_CREATE params)).
    { intros H. injection H as <- <-. split; [|congruence].
      intros payload qos [H|[]]. discriminate. }
    destruct (map_has (params_id params) (shells s)).
    { intros H. injection H as <- <-. split; [|congruence].
      intros payload qos [H|[]]. discriminate. }
    intros H. injection H as <- <-. split.
    - intros payload qos [H|[H|[H|[H|[]]]]]; try discriminate. exact (eq_sym H).
    - intros _. right. right. right. now left. }
  assert (Hcontrol : forall t msg s s' o,
             control a t msg s = Done tt s' o ->
             (forall payload qos,
                In (Publish (topicList a) payload qos) o ->
                Publish (topicList a) payload qos = lists a s')
             /\ (map_keys (shells s') <> map_keys (shells s) -> In (lists a s') o)).
  { intros t msg s s' o. unfold control.
    destruct (String.eqb t (topicCreate a)); [apply Hcreate|].
    destruct (String.eqb t (topicRemove a)).
    - rewrite ttyRemove_cases. destruct msg as [raw|params]; [discriminate|].
      destruct (negb (VALIDATOR_REMOVE params)).
      { intros H. injection H as <- <-. split; [|congruence].
        intros payload qos [H|[]]. discriminate. }
      destruct (map_get (params_id params) (shells s)).
      + intros H. injection H as <- <-. split; [|congruence].
        intros payload qos [H|[H|[]]]; discriminate.
      + intros H. injection H as <- <-. split; [|congruence].
        intros payload qos [H|[]]. discriminate.
    - intros H. injection H as <- <-. split; [|congruence]. intros payload qos []. }
  destruct ev as [| |t msg|t msg|p chunk|p]; cbn [step].
  - intros H. injection H as <- <-.
    split; [|intros Hne; exfalso; apply Hne; reflexivity].
    intros payload qos [H|[H|[H|[]]]]; try discriminate. exact (eq_sym H).
  - intros H. injection H as <- <-. split; [|congruence].
    intros payload qos [H|[]]. discriminate.
  - apply Hcontrol.
  - intros H. apply bind_Done in H.
    destruct H as (st0 & s0 & o0 & o1 & Hget & H & ->).
    injection Hget as <- <- <-.
    apply bind_Done in H. destruct H as ([] & st1 & o2 & o3 & Hc & Hf & ->).
    pose proof (for_each_writes a t msg _ _ _ _ Hf) as Hw.
    apply for_each_with_shell_same in Hf;
      [|intros k sh sh' o; apply onMessage_process].
    destruct Hf as (Hb & _ & _). apply keys_of_bindings in Hb.
    destruct (Hcontrol _ _ _ _ _ Hc) as [H1 H2].
    assert (Hl : lists a st' = lists a st1) by (unfold lists; now rewrite Hb).
    cbn [app]. split.
    + intros payload qos Hin. apply in_app_or in Hin. destruct Hin as [Hin|Hin].
      * rewrite Hl. now apply H1.
      * rewrite Forall_forall in Hw. destruct (Hw _ Hin) as (? & ? & ?). discriminate.
    + intros Hne. apply in_or_app. left. rewrite Hl. apply H2. now rewrite <- Hb.
  - intros H. apply bind_Done in H.
    destruct H as (st0 & s0 & o0 & o1 & Hget & H & ->).
    injection Hget as <- <- <-.
    destruct (owner p (shells st)) as [k|].
    + pose proof H as H'.
      apply with_shell_same in H'; [|intros sh sh' o; apply onData_process].
      destruct H' as (Hb & _ & _). apply keys_of_bindings in Hb.
      split; [|congruence].
      unfold with_shell in H. destruct (map_get k (shells st)) as [sh|].
      * injection H as _ <-. cbn [app]. intros payload qos [E|[]].
        injection E as E _ _. now apply topicTtyOut_not_list in E.
      * injection H as _ <-. intros payload qos [].
    + injection H as <- <-. split; [|congruence]. intros payload qos [].
  - intros H. apply bind_Done in H.
    destruct H as (st0 & s0 & o0 & o1 & Hget & H & ->).
    injection Hget as <- <- <-.
    destruct (owner p (shells st)) as [k|].
    + rewrite onExit_cases in H. injection H as <- <-. cbn [app]. split.
      * intros payload qos [H|[H|[]]]; [discriminate|]. exact (eq_sym H).
      * intros _. right. now left.
    + injection H as <- <-. split; [|congruence]. intros payload qos [].
Qed.

(** X20.  The list on [base/list] is always current.  In any turn of the
    target, whatever is published on the list topic is, with qos 1, the array
    of the identifiers that are in [shells] when the turn ends, in the order
    in which their sessions were created; and a turn that changes which
    identifiers are in [shells] (a create that registers, the exit of a
    process) publishes that list. *)
Theorem list_is_always_current (a : args) (ev : event) (st st' : state)
    (out : list effect) :
  step a ev st = Done tt st' out ->
  (forall payload qos,
     In (Publish (topicList a) payload qos) out ->
     payload = JArr (map key_json (map_keys (shells st'))) /\ qos = 1%nat)
  /\ (map_keys (shells st') <> map_keys (shells st) ->
      In (Publish (topicList a) (JArr (map key_json (map_keys (shells st')))) 1) out).
Proof.
  intros H. destruct (step_lists a ev st st' out H) as [H1 H2]. split.
  - intros payload qos Hin. specialize (H1 payload qos Hin).
    unfold lists in H1. now injection H1.
  - exact H2.
Qed.

End ListFacts.

(** ** The further properties at a concrete run *)

(** [Demo.two_sessions] is what a second create leaves. *)
Lemma two_sessions_reachable : Target.reachable Demo.target_args Demo.two_sessions.
Proof.
  apply (Target.reach_step Demo.target_args Demo.one_session
           (Target.EvControl (Target.topicCreate Demo.target_args)
              (Parsed Demo.other_params))
           Demo.two_sessions
           [Log Info ""; Spawn "bash" 1%nat;
            Subscribe (Target.topicTtyIn Demo.target_args (Some Demo.other_session));
            Publish (Target.topicList Demo.target_args)
              (JArr [JStr Demo.session; JStr Demo.other_session]) 1]).
  - exact one_session_reachable.
  - reflexivity.
Qed.

Lemma registry_and_subscriptions_agree_witness :
  Target.reachable Demo.target_args Demo.two_sessions
  /\ NoDup (Target.subscriptions Demo.two_sessions)
  /\ forall k, In k (Target.map_keys (Target.shells Demo.two_sessions)) ->
       In (Target.topicTtyIn Demo.target_args k) (Target.subscriptions Demo.two_sessions).
Proof.
  split; [exact two_sessions_reachable|].
  destruct (RegistryFacts.registry_and_subscriptions_agree Demo.target_args
              Demo.two_sessions two_sessions_reachable) as (H1 & _ & H3 & _).
  split; assumption.
Defined.


Lemma stray_message_is_ignored_witness :
  Target.step Demo.target_args
    (Target.EvStream
       "shell/11111111-1111-1111-1111-111111111111/44444444-4444-4444-4444-444444444444/in"
       (Unparsable "{")) Demo.two_sessions =
  Done tt Demo.two_sessions [].
Proof.
  apply RoutingFacts.stray_message_is_ignored; try discriminate.
  intros k [<-|[<-|[]]]; discriminate.
Defined.

Lemma remove_unknown_is_noop_witness :
  VALIDATOR_REMOVE Demo.other_params = true
  /\ Target.step Demo.target_args
       (Target.EvControl (Target.topicRemove Demo.target_args) (Parsed Demo.other_params))
       Demo.one_session =
     Done tt Demo.one_session [Log Warn "shell does not exist"].
Proof.
  split; [reflexivity|].
  exact (RoutingFacts.remove_unknown_is_noop Demo.target_args Demo.one_session
           Demo.other_params eq_refl eq_refl).
Defined.

Lemma session_can_be_created_again_witness :
  Target.reachable Demo.target_args Demo.two_sessions
  /\ Target.map_get (Some Demo.session)
       (Target.shells
          (Target.created Demo.target_args (Some Demo.session)
             (Target.exited Demo.target_args (Some Demo.session) Demo.two_sessions))) =
     Some {| Target.process := 2%nat; Target.seqIn := 0; Target.seqOut := 0;
             Target.bufferIn := [] |}.
Proof.
  split; [exact two_sessions_reachable|].
  exact (proj1 (proj2 (RoutingFacts.session_can_be_created_again Demo.target_args
                          Demo.two_sessions Demo.session_params Demo.fresh_shell
                          two_sessions_reachable eq_refl eq_refl))).
Defined.

Lemma create_without_id_uses_undefined_witness :
  prop "id" [("seq", JNum 0)] = None
  /\ Target.map_get None
       (Target.shells (Target.created Demo.target_args None Demo.one_session)) =
     Some {| Target.process := 1%nat; Target.seqIn := 0; Target.seqOut := 0;
             Target.bufferIn := [] |}.
Proof.
  split; [reflexivity|].
  exact (proj2 (RoutingFacts.create_without_id_uses_undefined Demo.target_args
                  Demo.one_session [("seq", JNum 0)] eq_refl eq_refl)).
Defined.

Lemma target_reassembles_per_session_witness :
  Target.reachable Demo.target_args Demo.two_sessions
  /\ for_each
       (map (fun q =>
               Target.EvStream (Target.topicTtyIn Demo.target_args (Some Demo.session))
                 (Parsed q))
          [Demo.p2; Demo.p0; Demo.p1])
       (Target.step Demo.target_args) Demo.two_sessions =
     Done tt
       (Target.put_shell (Some Demo.session)
          {| Target.process := 0%nat; Target.seqIn := 3; Target.seqOut := 0;
             Target.bufferIn := [] |} Demo.two_sessions)
       [PtyWrite 0%nat "l"; PtyWrite 0%nat "s"; PtyWrite 0%nat "!"].
Proof.
  split; [exact two_sessions_reachable|].
  assert (HP : Permutation [Demo.p2; Demo.p0; Demo.p1]
                 (Sequencer.numbered 0 ["l"; "s"; "!"])).
  { apply perm_trans with [Demo.p0; Demo.p2; Demo.p1];
      [apply perm_swap|apply perm_skip, perm_swap]. }
  exact (proj1 (StreamFacts.target_reassembles_per_session Demo.target_args
                  Demo.two_sessions (Some Demo.session) Demo.fresh_shell
                  ["l"; "s"; "!"] [Demo.p2; Demo.p0; Demo.p1]
                  two_sessions_reachable eq_refl eq_refl eq_refl HP)).
Defined.

Lemma answered_heartbeat_never_terminates_witness :
  exists c' out,
    Master.run "shell/"
      (flat_map Master.answered_interval
         [([Master.EvWsMessage "ls"], []); ([], [Master.EvWsError])])
      Demo.fresh_conn = Done tt c' out
    /\ Master.count Master.is_terminate out = 0%nat
    /\ Master.count Master.is_ping out = 2%nat.
Proof.
  assert (Hq : Forall (fun r => Forall (fun ev => Master.quiet ev = true) (fst r)
                               /\ Forall (fun ev => Master.quiet ev = true) (snd r))
                 [([Master.EvWsMessage "ls"], []); ([], [Master.EvWsError])]).
  { repeat constructor. }
  destruct (ConnectionFacts.answered_heartbeat_never_terminates "shell/"
              Demo.fresh_conn _ eq_refl Hq) as (c' & out & Hrun & Ht & Hp & _).
  exists c', out. repeat split; assumption.
Defined.

Lemma broadcast_reaches_its_connection_only_witness :
  Master.ttyId Demo.fresh_conn <> Master.ttyId Demo.other_conn
  /\ Master.broadcast "shell/" (Master.topicTtyOut "shell/" Demo.other_conn)
       (Parsed Demo.p0) [Demo.fresh_conn; Demo.other_conn] =
     match
       Master.step "shell/"
         (Master.EvMessage (Master.topicTtyOut "shell/" Demo.other_conn) (Parsed Demo.p0))
         Demo.other_conn
     with
     | Done _ c' out => Done tt [Demo.fresh_conn; c'] out
     | Uncaught e c' out => Uncaught e [Demo.fresh_conn; c'] out
     end.
Proof.
  split; [discriminate|].
  apply (ProtocolFacts.broadcast_reaches_its_connection_only "shell/"
           [Demo.fresh_conn] [] Demo.other_conn (Parsed Demo.p0)); [reflexivity|].
  intros c0 [<-|[]]. split; [reflexivity|discriminate].
Defined.

Lemma master_and_target_agree_witness :
  Pattern.test Demo.session = true
  /\ Target.step Demo.target_args
       (Target.EvControl (Target.topicRemove Demo.target_args)
          (Parsed (JObj [("id", JStr Demo.session)])))
       (Target.created Demo.target_args (Some Demo.session) Target.initial) =
     Done tt (Target.created Demo.target_args (Some Demo.session) Target.initial)
       [Log Info ""; Kill 0%nat 9].
Proof.
  split; [reflexivity|].
  exact (proj2 (proj2 (proj2 (proj2
           (ProtocolFacts.master_and_target_agree Demo.target_args Demo.session
              Demo.fresh_conn _ Target.initial eq_refl eq_refl eq_refl))))).
Defined.

Lemma closed_connection_is_detached_witness :
  Master.run "shell/"
    [Master.EvClose;
     Master.EvMessage (Master.topicTtyOut "shell/" Demo.fresh_conn) (Unparsable "{");
     Master.EvTick;
     Master.EvMessage (Master.topicTtyOut "shell/" Demo.fresh_conn) (Parsed Demo.p0)]
    Demo.fresh_conn =
  Done tt
    {| Master.targetId := "11111111-1111-1111-1111-111111111111";
       Master.ttyId := Demo.session;
       Master.isAlive := true; Master.heartbeat := false;
       Master.seqIn := 0; Master.seqOut := 0;
       Master.bufferOut := []; Master.listening := false |}
    [Log Info "disconnected";
     ClearInterval;
     Unsubscribe (Master.topicTtyOut "shell/" Demo.fresh_conn);
     Publish (Master.topicRemove "shell/" Demo.fresh_conn)
       (JObj [("id", JStr Demo.session)]) 1].
Proof.
  apply (CloseFacts.closed_connection_is_detached "shell/" Demo.fresh_conn).
  repeat constructor.
Defined.

Lemma list_is_always_current_witness :
  Target.step Demo.target_args (Target.EvExit 0%nat) Demo.two_sessions =
    Done tt
      (Target.exited Demo.target_args (Some Demo.session) Demo.two_sessions)
      [Unsubscribe (Target.topicTtyIn Demo.target_args (Some Demo.session));
       Publish (Target.topicList Demo.target_args) (JArr [JStr Demo.other_session]) 1]
  /\ In (Publish (Target.topicList Demo.target_args) (JArr [JStr Demo.other_session]) 1)
       [Unsubscribe (Target.topicTtyIn Demo.target_args (Some Demo.session));
        Publish (Target.topicList Demo.target_args) (JArr [JStr Demo.other_session]) 1].
Proof.
  split; [reflexivity|].
  apply (proj2 (ListFacts.list_is_always_current Demo.target_args (Target.EvExit 0%nat)
                  Demo.two_sessions
                  (Target.exited Demo.target_args (Some Demo.session) Demo.two_sessions)
                  _ eq_refl)).
  discriminate.
Defined.
